(** * Grammar extraction from a bracketed treebank

    A verification development for [anc_masc_ptb_extract.py]: the script
    reads parse trees from a corpus reader, normalises each sentence with
    the tree library's [chomsky_normal_form], and collects the textual
    form of every production in one of two sets, [terminal] and [binary].

    The script is Python 2 over NLTK 3 (it prints with statements and
    calls [label()] and [unicode_repr()]). The file has these layers:
    - [PyStr]: the Python string operations involved, [join] and the
      [repr] of a unicode object;
    - [Nltk]: the library routines the script calls, after
      [nltk.tree.Tree] ([label], [productions], [chomsky_normal_form]),
      [nltk.treetransforms.chomsky_normal_form] and [nltk.grammar]
      ([Nonterminal], [Production], [is_lexical], [unicode_repr]);
    - the script itself, written in a small state-and-exception monad
      over the two accumulator sets; it is stated for any budget of
      nested calls the interpreter leaves to the recursive
      [productions];
    - the notions the properties are stated with, and the lemmas about
      the library and the loops;
    - the properties of the extractor, and their closed instances at
      the end. *)

From Stdlib Require Import String Ascii List Bool Arith Lia Permutation.
From stdpp Require Import base tactics option list gmap sets strings.
Import ListNotations.

Local Open Scope string_scope.
Local Open Scope list_scope.

(** ** Python strings

    Labels and tokens are unicode objects; here a string is a sequence of
    code points below 256, one [ascii] each. *)

Module PyStr.

(** [sep.join(xs)] *)
Fixpoint join (sep : string) (xs : list string) : string :=
  match xs with
  | [] => EmptyString
  | [x] => x
  | x :: rest => x ++ sep ++ join sep rest
  end.

(** Membership of a character in a string. *)
Fixpoint contains (c : ascii) (s : string) : bool :=
  match s with
  | EmptyString => false
  | String d s' => if Ascii.eqb c d then true else contains c s'
  end.

Definition hexdigit (n : nat) : ascii :=
  match n with
  | 0 => "0" | 1 => "1" | 2 => "2" | 3 => "3" | 4 => "4" | 5 => "5"
  | 6 => "6" | 7 => "7" | 8 => "8" | 9 => "9" | 10 => "a" | 11 => "b"
  | 12 => "c" | 13 => "d" | 14 => "e" | _ => "f"
  end%char.

Definition squote : ascii := ascii_of_nat 39.
Definition dquote : ascii := ascii_of_nat 34.
Definition backslash : ascii := ascii_of_nat 92.

(** The quote character [repr] chooses: a double quote when the text has a
    single quote and no double quote, a single quote otherwise. *)
Definition quote_of (s : string) : ascii :=
  if contains squote s && negb (contains dquote s) then dquote else squote.

(** Escaping of one character inside [repr], for the chosen quote [q].
    Characters are code points below 256, one [ascii] each. *)
Definition escape_char (q c : ascii) : string :=
  let n := nat_of_ascii c in
  if Ascii.eqb c q || Ascii.eqb c backslash then String backslash (String c EmptyString)
  else if Nat.eqb n 9 then String backslash "t"
  else if Nat.eqb n 10 then String backslash "n"
  else if Nat.eqb n 13 then String backslash "r"
  else if Nat.ltb n 32 || Nat.leb 127 n then
    String backslash (String "x"%char
      (String (hexdigit (n / 16)) (String (hexdigit (n mod 16)) EmptyString)))
  else String c EmptyString.

Fixpoint escape (q : ascii) (s : string) : string :=
  match s with
  | EmptyString => EmptyString
  | String c s' => escape_char q c ++ escape q s'
  end.

(** [repr(u)[1:]] for a unicode object [u]: the quoted, escaped text
    without the leading [u]. *)
Definition unicode_repr (s : string) : string :=
  let q := quote_of s in
  String q (escape q s ++ String q EmptyString).

End PyStr.

(** ** The tree library *)

Module Nltk.

(** A child of a tree node is a token (a plain string) or a subtree. *)
Inductive Child (T : Type) : Type :=
| Leaf (token : string)
| Sub (t : T).
Arguments Leaf {T} token.
Arguments Sub {T} t.

(** [Tree]: a label and the list of children. *)
#[warnings="-register-all"]
Inductive Tree : Type :=
| Node (label : string) (children : list (Child Tree)).

Definition label (t : Tree) : string :=
  match t with Node l _ => l end.

Definition children (t : Tree) : list (Child Tree) :=
  match t with Node _ cs => cs end.

(** Exceptions raised on the paths modelled here: by the library
    ([AttributeError]) and by the interpreter ([RuntimeError], maximum
    recursion depth exceeded). *)
Inductive exn : Type :=
| AttributeError
| RuntimeError.

Inductive result (A : Type) : Type :=
| Ok (a : A)
| Raise (e : exn).
Arguments Ok {A} a.
Arguments Raise {A} e.

(** *** Grammar objects *)

Inductive Symbol : Type :=
| Nonterminal (symbol : string)
| Terminal (token : string).

Record Production : Type := mkProduction {
  lhs : string;          (* the symbol of the left-hand [Nonterminal] *)
  rhs : list Symbol
}.

Definition is_nonterminal (x : Symbol) : bool :=
  match x with Nonterminal _ => true | Terminal _ => false end.

(** [Production.is_nonlexical]: [all(is_nonterminal(n) for n in rhs)] *)
Definition is_nonlexical (p : Production) : bool :=
  forallb is_nonterminal (rhs p).

(** [Production.is_lexical]: [not self.is_nonlexical()] *)
Definition is_lexical (p : Production) : bool :=
  negb (is_nonlexical p).

(** [unicode_repr(el)] of a right-hand-side element: a [Nonterminal]
    prints its bare symbol, a token prints as a quoted string. *)
Definition symbol_repr (x : Symbol) : string :=
  match x with
  | Nonterminal s => s
  | Terminal tok => PyStr.unicode_repr tok
  end.

(** [Production.unicode_repr]: ['%s -> ' % lhs] followed by the
    space-separated right-hand side. *)
Definition unicode_repr (p : Production) : string :=
  (lhs p ++ " -> ") ++ PyStr.join " " (map symbol_repr (rhs p)).

(** *** Productions of a tree *)

(** [_child_names]: a subtree contributes its label as a [Nonterminal], a
    token contributes itself. *)
Definition child_name (c : Child Tree) : Symbol :=
  match c with
  | Leaf tok => Terminal tok
  | Sub t => Nonterminal (label t)
  end.

(** All results of a list, or the first exception. *)
Fixpoint sequence {A : Type} (rs : list (result A)) : result (list A) :=
  match rs with
  | [] => Ok []
  | Raise e :: _ => Raise e
  | Ok a :: rest =>
      match sequence rest with
      | Ok xs => Ok (a :: xs)
      | Raise e => Raise e
      end
  end.

(** [Tree.productions]: the production of the node, then those of the
    subtrees, left to right. The method is recursive: a call on a node
    calls itself on every subtree, one interpreter frame deeper, and the
    interpreter raises [RuntimeError] when a call would exceed its
    recursion limit. [frames] is the number of nested calls of the
    method that are still allowed; the list is built only when every
    nested call returns. *)
Fixpoint productions (frames : nat) (t : Tree) : result (list Production) :=
  match frames with
  | 0 => Raise RuntimeError
  | S frames' =>
      match t with
      | Node l cs =>
          match sequence (map (fun c => match c with
                                        | Leaf _ => Ok []
                                        | Sub t' => productions frames' t'
                                        end) cs) with
          | Ok pss => Ok (mkProduction l (map child_name cs) :: concat pss)
          | Raise e => Raise e
          end
      end
  end.

(** *** Chomsky normal form *)

(** [child.label()] for each child; a token has no [label] attribute. *)
Fixpoint child_labels (cs : list (Child Tree)) : result (list string) :=
  match cs with
  | [] => Ok []
  | Leaf _ :: _ => Raise AttributeError
  | Sub t :: rest =>
      match child_labels rest with
      | Ok ls => Ok (label t :: ls)
      | Raise e => Raise e
      end
  end.

(** The default [horzMarkov]: [None] is replaced by 999. *)
Definition horzMarkov : nat := 999.

(** ["%s%s<%s>" % (originalNode, childChar, "-".join(childNodes[i:min(i+horzMarkov, n)]))]
    with [childChar = "|"]; [names] is [childNodes[i:]]. *)
Definition new_head (originalNode : string) (names : list string) : string :=
  originalNode ++ "|" ++ "<" ++ PyStr.join "-" (firstn horzMarkov names) ++ ">".

(** Right factoring of a node with more than two children: the first
    child stays, the others move under a new node, and so on until two
    children remain. [names] are the labels of [cs]. *)
Fixpoint factor_right (originalNode : string) (names : list string)
    (cs : list (Child Tree)) {struct cs} : list (Child Tree) :=
  match cs, names with
  | c :: ((_ :: _ :: _) as rest), _ :: names' =>
      [c; Sub (Node (new_head originalNode names')
                    (factor_right originalNode names' rest))]
  | _, _ => cs
  end.

(** [Tree.chomsky_normal_form()] with its defaults ([factor="right"],
    [horzMarkov=None], [vertMarkov=0]). The library rewrites the tree in
    place, taking nodes from an agenda until it is empty; the function
    below gives the tree the object holds afterwards. Every node of the
    tree is visited; a node with more than two children is factored,
    which asks each child for its label and so raises on a token. With
    [vertMarkov=0] no label of the input changes. *)
Fixpoint chomsky_normal_form (t : Tree) : result Tree :=
  match t with
  | Node l cs =>
      match sequence (map (fun c => match c with
                                    | Leaf tok => Ok (Leaf tok)
                                    | Sub t' =>
                                        match chomsky_normal_form t' with
                                        | Ok t'' => Ok (Sub t'')
                                        | Raise e => Raise e
                                        end
                                    end) cs) with
      | Raise e => Raise e
      | Ok cs' =>
          if Nat.ltb 2 (length cs) then
            match child_labels cs with
            | Raise e => Raise e
            | Ok names => Ok (Node l (factor_right l names cs'))
            end
          else Ok (Node l cs')
      end
  end.

End Nltk.

(** ** The script *)

Import Nltk.

(** The closed instances at the end of the file take this budget for
    the sentences that are processed; any budget that covers the height
    of the sample trees gives the same. *)
Definition sample_budget : nat := 500.

(** [sys.getrecursionlimit()] of an interpreter left alone. The budget
    of [productions] is below it, since the script and the library use
    some frames themselves. *)
Definition default_recursion_limit : nat := 1000.

Section Script.

(** The number of nested calls of [productions] the interpreter allows
    where the script calls it. It follows from the interpreter's
    recursion limit (1000 unless it was changed) and the frames in use,
    and the script does not fix it. *)
Variable recursion_budget : nat.

(** The two module-level accumulators, [terminal = set()] and
    [binary = set()]. *)
Record Store : Type := mkStore {
  terminal : gset string;
  binary : gset string
}.

Definition empty_store : Store := mkStore ∅ ∅.

(** A statement runs on the store and either completes or raises; the
    store it leaves behind is kept in both cases, since a mutation made
    before an exception is not undone. *)
Definition M (A : Type) : Type := Store -> result A * Store.

Definition ret {A : Type} (a : A) : M A := fun st => (Ok a, st).

Definition bind {A B : Type} (m : M A) (k : A -> M B) : M B :=
  fun st =>
    match m st with
    | (Ok a, st') => k a st'
    | (Raise e, st') => (Raise e, st')
    end.

Notation "'let*' x ':=' m 'in' k" := (bind m (fun x => k))
  (at level 10, x name, m at level 100, k at level 200).
Notation "m ';;' k" := (bind m (fun _ => k))
  (at level 100, k at level 200, right associativity).

(** A library call: its exception, if any, propagates. *)
Definition call {A : Type} (r : result A) : M A := fun st => (r, st).

(** [try: body / except Exception: pass] *)
Definition try_except_pass (body : M unit) : M unit :=
  fun st =>
    match body st with
    | (Ok _, st') => (Ok tt, st')
    | (Raise _, st') => (Ok tt, st')
    end.

(** [for x in xs: body(x)] *)
Fixpoint for_in {A : Type} (xs : list A) (body : A -> M unit) : M unit :=
  match xs with
  | [] => ret tt
  | x :: rest => body x ;; for_in rest body
  end.

(** [terminal.add(s)] and [binary.add(s)] *)
Definition terminal_add (s : string) : M unit :=
  fun st => (Ok tt, mkStore ({[ s ]} ∪ terminal st) (binary st)).

Definition binary_add (s : string) : M unit :=
  fun st => (Ok tt, mkStore (terminal st) ({[ s ]} ∪ binary st)).

(** The corpus reader, as far as the script uses it. *)
Record CorpusReader : Type := mkReader {
  fileids : list string;
  parsed_sents : string -> list Tree
}.

(** Lines 15-18: the body of the loop over the productions. *)
Definition add_production (p : Production) : M unit :=
  if is_lexical p then terminal_add (unicode_repr p)
  else binary_add (unicode_repr p).

(** Lines 13-18: the body of the [try]. [sent'] is [sent] after the
    in-place normalisation; [sent.productions()] returns its list, or
    raises, before the loop starts. *)
Definition try_body (sent : Tree) : M unit :=
  let* sent' := call (chomsky_normal_form sent) in
  let* ps := call (productions recursion_budget sent') in
  for_in ps add_production.

(** Lines 11-20: the body of the loop over the sentences. *)
Definition per_sentence (sent : Tree) : M unit :=
  if negb (String.eqb (label sent) "CODE")
  then try_except_pass (try_body sent)
  else ret tt.

(** Lines 9-20: both loops. *)
Definition main_loop (reader : CorpusReader) : M unit :=
  for_in (fileids reader) (fun fileid =>
    for_in (parsed_sents reader fileid) per_sentence).

(** Lines 7-20: the script up to the printing. *)
Definition run (reader : CorpusReader) : result unit * Store :=
  main_loop reader empty_store.

(** The sentences in the order the loops visit them. *)
Definition sentences (reader : CorpusReader) : list Tree :=
  flat_map (parsed_sents reader) (fileids reader).

(** The loop over a plain list of sentences, from the empty sets. *)
Definition extract (sents : list Tree) : Store :=
  snd (for_in sents per_sentence empty_store).

(** What one sentence adds, seen on its own. *)
Definition contribution (sent : Tree) : Store :=
  snd (per_sentence sent empty_store).

(** The lines printed under [TERMINALS] and under [BINARIES], in the
    order the set yields them. *)
Definition terminal_lines (st : Store) : list string := elements (terminal st).
Definition binary_lines (st : Store) : list string := elements (binary st).

(** Lines 22-26: the report. [print x] writes the text of [x] and a
    newline; a bare [print] writes a newline. *)
Definition newline : string := String (ascii_of_nat 10) EmptyString.

Definition print (x : string) : string := x ++ newline.

(** The text written when the two sets are iterated in the given
    orders. *)
Definition report (terminal_order binary_order : list string) : string :=
  print "TERMINALS" ++
  print (PyStr.join newline terminal_order) ++
  print EmptyString ++
  print "BINARIES" ++
  print (PyStr.join newline binary_order).

(** A set is iterated in some order, each member once: [out] is a text
    the script may write for the store [st]. *)
Definition prints (st : Store) (out : string) : Prop :=
  exists ts bs,
    Permutation ts (elements (terminal st)) /\
    Permutation bs (elements (binary st)) /\
    out = report ts bs.

(** *** Sample trees *)

Definition pre (tag word : string) : Child Tree := Sub (Node tag [Leaf word]).

(** [(S (NP (DT the) (NN cat)) (VP (VBZ sat)))] *)
Definition the_cat_sat : Tree :=
  Node "S" [Sub (Node "NP" [pre "DT" "the"; pre "NN" "cat"]);
            Sub (Node "VP" [pre "VBZ" "sat"])].

(** [(S (NP (DT the) (JJ big) (NN cat)) (VP (VBZ sat)))] *)
Definition the_big_cat_sat : Tree :=
  Node "S" [Sub (Node "NP" [pre "DT" "the"; pre "JJ" "big"; pre "NN" "cat"]);
            Sub (Node "VP" [pre "VBZ" "sat"])].

(** [(X a b c)]: three tokens under one node. *)
Definition three_tokens : Tree :=
  Node "X" [Leaf "a"; Leaf "b"; Leaf "c"].

(** [(CODE (SYM #))] *)
Definition code_block : Tree :=
  Node "CODE" [pre "SYM" "#"].

(** [(X (X ... (X x)))]: a chain of [n] nodes over a node with a
    token. *)
Fixpoint unary_chain (n : nat) : Tree :=
  match n with
  | 0 => Node "X" [Leaf "x"]
  | S m => Node "X" [Sub (unary_chain m)]
  end.

(** [(NP (DT the) cat)]: a token next to a subtree. *)
Definition mixed_children : Tree :=
  Node "NP" [pre "DT" "the"; Leaf "cat"].

(** [(S (X the) (X ('the' foo)))]: the second [X] has a child whose label
    is the five characters ['the']. *)
Definition quoted_label : Tree :=
  Node "S" [pre "X" "the"; Sub (Node "X" [pre "'the'" "foo"])].

(** [(S (A a) (B b) (C c) (D d))] *)
Definition four_children : Tree :=
  Node "S" [pre "A" "a"; pre "B" "b"; pre "C" "c"; pre "D" "d"].

(** [(S (CODE a b c))] *)
Definition inner_code_tokens : Tree :=
  Node "S" [Sub (Node "CODE" [Leaf "a"; Leaf "b"; Leaf "c"])].

(** [(S (CODE (SYM #)) (VP (VBZ sat)))] *)
Definition inner_code : Tree :=
  Node "S" [Sub code_block; Sub (Node "VP" [pre "VBZ" "sat"])].

(** A reader over one file holding the given sentences. *)
Definition one_file (sents : list Tree) : CorpusReader :=
  mkReader ["written/blog/sample.mrg"] (fun _ => sents).

(** ** Notions used to state the properties *)

(** The list [productions] returns when it returns. *)
Fixpoint production_list (t : Tree) : list Production :=
  match t with
  | Node l cs =>
      mkProduction l (map child_name cs) ::
      flat_map (fun c => match c with
                         | Leaf _ => []
                         | Sub t' => production_list t'
                         end) cs
  end.

(** The number of nested calls [productions] makes on a tree: the
    number of nodes on its longest path from the root. *)
Fixpoint height (t : Tree) : nat :=
  match t with
  | Node _ cs =>
      S (list_max (map (fun c => match c with
                                 | Leaf _ => 0
                                 | Sub t' => height t'
                                 end) cs))
  end.

Definition store_union (a b : Store) : Store :=
  mkStore (terminal a ∪ terminal b) (binary a ∪ binary b).

Definition store_unions (xs : list Store) : Store :=
  foldr store_union empty_store xs.

(** The store holding one production, on the side its kind selects. *)
Definition single (p : Production) : Store :=
  if is_lexical p then mkStore {[ unicode_repr p ]} ∅
  else mkStore ∅ {[ unicode_repr p ]}.

Definition classified (ps : list Production) : Store :=
  store_unions (map single ps).

(** The productions the inner loop iterates over for a sentence: none
    when the sentence is skipped, when its normalisation raises or when
    [productions] raises. *)
Definition emitted (sent : Tree) : list Production :=
  if String.eqb (label sent) "CODE" then []
  else match chomsky_normal_form sent with
       | Ok sent' =>
           match productions recursion_budget sent' with
           | Ok ps => ps
           | Raise _ => []
           end
       | Raise _ => []
       end.

(** The [try] body raises on this sentence. *)
Definition raises (sent : Tree) : Prop :=
  ∃ e st, fst (try_body sent st) = Raise e.

(** All nodes of a tree, root first. *)
Fixpoint nodes (t : Tree) : list Tree :=
  match t with
  | Node l cs =>
      t :: flat_map (fun c => match c with
                              | Leaf _ => []
                              | Sub t' => nodes t'
                              end) cs
  end.

(** The nodes below a list of children. *)
Definition child_nodes (cs : list (Child Tree)) : list Tree :=
  flat_map (fun c => match c with
                     | Leaf _ => []
                     | Sub t => nodes t
                     end) cs.

(** The nodes strictly below the root. *)
Definition internal_nodes (t : Tree) : list Tree :=
  child_nodes (children t).

(** Trees in which a token is always an only child and no node is
    childless. *)
Fixpoint preterminal_form (t : Tree) : bool :=
  match t with
  | Node _ cs =>
      match cs with
      | [] => false
      | [Leaf _] => true
      | _ => forallb (fun c => match c with
                               | Leaf _ => false
                               | Sub t' => preterminal_form t'
                               end) cs
      end
  end.

(** The productions of the cascade that replaces a node labelled
    [originalNode] whose children are labelled [names]: [cur] is the label
    of the node being filled. *)
Fixpoint cascade_rules (originalNode cur : string) (names : list string)
    : list Production :=
  match names with
  | n :: ((_ :: _ :: _) as names') =>
      mkProduction cur [Nonterminal n; Nonterminal (new_head originalNode names')]
      :: cascade_rules originalNode (new_head originalNode names') names'
  | _ => [mkProduction cur (map Nonterminal names)]
  end.

(** The productions of the subtrees among a list of children. *)
Definition child_productions (cs : list (Child Tree)) : list Production :=
  flat_map (fun c => match c with
                     | Leaf _ => []
                     | Sub t => production_list t
                     end) cs.

(** The synthetic labels the cascade introduces. *)
Fixpoint synthetic_labels (originalNode : string) (names : list string)
    : list string :=
  match names with
  | _ :: ((_ :: _ :: _) as names') =>
      new_head originalNode names' :: synthetic_labels originalNode names'
  | _ => []
  end.

(** The productions one node of the input gives rise to after
    normalisation: its own production when it has at most two children,
    the productions of its cascade otherwise. *)
Definition node_rules (n : Tree) : list Production :=
  if Nat.ltb 2 (length (children n)) then
    match child_labels (children n) with
    | Ok names => cascade_rules (label n) (label n) names
    | Raise _ => []
    end
  else [mkProduction (label n) (map child_name (children n))].

Definition is_terminal (x : Symbol) : bool := negb (is_nonterminal x).

(** A node of a tree in preterminal form: one token, or only subtrees and
    at least one. *)
Definition preterminal_node (n : Tree) : Prop :=
  (∃ tok, children n = [Leaf tok]) ∨
  (children n ≠ [] ∧ ∃ names, child_labels (children n) = Ok names).

(** The shape of a production of a grammar in normal form: one token, or
    one or two non-terminals. *)
Definition normal_shape (p : Production) : Prop :=
  (is_lexical p = true ∧ ∃ tok, rhs p = [Terminal tok]) ∨
  (is_lexical p = false ∧ (length (rhs p) = 1 ∨ length (rhs p) = 2) ∧
   forallb is_nonterminal (rhs p) = true).

(** The tokens of a tree, left to right. *)
Fixpoint leaves (t : Tree) : list string :=
  match t with
  | Node _ cs =>
      flat_map (fun c => match c with
                         | Leaf tok => [tok]
                         | Sub t' => leaves t'
                         end) cs
  end.

Definition child_leaves (cs : list (Child Tree)) : list string :=
  flat_map (fun c => match c with
                     | Leaf tok => [tok]
                     | Sub t => leaves t
                     end) cs.

(** The production of one node, as [productions] builds it. *)
Definition node_production (n : Tree) : Production :=
  mkProduction (label n) (map child_name (children n)).

(** A node with more than two children, one of them a token. *)
Definition wide_with_token (n : Tree) : Prop :=
  (2 < length (children n))%nat ∧ ∃ tok, In (Leaf tok) (children n).

(** Every node of the tree has at most two children. *)
Definition narrow (t : Tree) : Prop :=
  Forall (λ n, (length (children n) ≤ 2)%nat) (nodes t).

(** The left-hand sides a node gives rise to: its label, and the
    synthetic labels of its cascade when it has more than two children. *)
Definition node_lhs (n : Tree) : list string :=
  label n ::
  (if Nat.ltb 2 (length (children n)) then
     match child_labels (children n) with
     | Ok names => synthetic_labels (label n) names
     | Raise _ => []
     end
   else []).

(** Printable ASCII: the characters from the space to the tilde. *)
Definition printable (c : ascii) : bool :=
  Nat.leb 32 (nat_of_ascii c) && Nat.ltb (nat_of_ascii c) 127.

Definition printable_or_newline (c : ascii) : bool :=
  printable c || Ascii.eqb c (ascii_of_nat 10).

Fixpoint all_chars (P : ascii → bool) (s : string) : bool :=
  match s with
  | EmptyString => true
  | String c s' => P c && all_chars P s'
  end.

(** Every label of the tree is printable ASCII. *)
Definition clean_labels (t : Tree) : Prop :=
  Forall (λ n, all_chars printable (label n) = true) (nodes t).

(** The text of a production is printable ASCII. *)
Definition clean_text (p : Production) : Prop :=
  all_chars printable (unicode_repr p) = true.

(** [starts_with a b]: [a] is a prefix of [b]. *)
Fixpoint starts_with (a b : string) : bool :=
  match a, b with
  | EmptyString, _ => true
  | String c a', String d b' => Ascii.eqb c d && starts_with a' b'
  | String _ _, EmptyString => false
  end.

(** A check over all 256 characters. *)
Definition forall_bool (f : bool → bool) : bool := f true && f false.

Definition forall_ascii (P : ascii → bool) : bool :=
  forall_bool (λ b0, forall_bool (λ b1, forall_bool (λ b2, forall_bool (λ b3,
  forall_bool (λ b4, forall_bool (λ b5, forall_bool (λ b6, forall_bool (λ b7,
    P (Ascii b0 b1 b2 b3 b4 b5 b6 b7))))))))).

(** No two characters have escapes one of which starts with the other. *)
Definition escapes_prefix_free (q : ascii) : bool :=
  forall_ascii (λ c1, forall_ascii (λ c2,
    implb (starts_with (PyStr.escape_char q c1) (PyStr.escape_char q c2))
          (Ascii.eqb c1 c2))).

(** The step of [chomsky_normal_form] on one child. *)
Definition cnf_child (c : Child Tree) : result (Child Tree) :=
  match c with
  | Leaf tok => Ok (Leaf tok)
  | Sub t =>
      match chomsky_normal_form t with
      | Ok t' => Ok (Sub t')
      | Raise e => Raise e
      end
  end.

(** A child and its normalised form: a token is unchanged, a subtree is
    replaced by its normal form. *)
Inductive child_cnf : Child Tree → Child Tree → Prop :=
| child_cnf_leaf tok : child_cnf (Leaf tok) (Leaf tok)
| child_cnf_sub t t' :
    chomsky_normal_form t = Ok t' → child_cnf (Sub t) (Sub t').

(** ** Lemmas *)

Local Open Scope nat_scope.

(** *** Induction on trees *)

Lemma Tree_nested_ind (P : Tree → Prop) :
  (∀ l cs,
      Forall (λ c, match c with Leaf _ => True | Sub t => P t end) cs →
      P (Node l cs)) →
  ∀ t, P t.
Proof.
  intros step. fix IH 1. intros [l cs]. apply step.
  induction cs as [|c cs IHcs]; constructor; [|exact IHcs].
  destruct c; [exact I | apply IH].
Qed.

(** *** Stores *)

Lemma store_eq (a b : Store) :
  terminal a = terminal b → binary a = binary b → a = b.
Proof. destruct a, b; simpl; intros -> ->; reflexivity. Qed.

Lemma store_union_empty_r (a : Store) : store_union a empty_store = a.
Proof. apply store_eq; simpl; apply union_empty_r_L. Qed.

Lemma store_union_empty_l (a : Store) : store_union empty_store a = a.
Proof. apply store_eq; simpl; apply union_empty_l_L. Qed.

Lemma store_union_assoc (a b c : Store) :
  store_union a (store_union b c) = store_union (store_union a b) c.
Proof. apply store_eq; simpl; apply assoc_L, _. Qed.

Lemma store_union_comm (a b : Store) : store_union a b = store_union b a.
Proof. apply store_eq; simpl; apply comm_L, _. Qed.

Lemma store_union_idemp (a : Store) : store_union a a = a.
Proof. apply store_eq; simpl; apply union_idemp_L. Qed.

Lemma store_unions_app (xs ys : list Store) :
  store_unions (xs ++ ys) = store_union (store_unions xs) (store_unions ys).
Proof.
  induction xs as [|x xs IH]; simpl.
  - symmetry; apply store_union_empty_l.
  - rewrite IH. apply store_union_assoc.
Qed.

Lemma store_unions_perm (xs ys : list Store) :
  Permutation xs ys → store_unions xs = store_unions ys.
Proof.
  induction 1 as [|x xs ys _ IH|x y xs|xs ys zs _ IH1 _ IH2]; simpl.
  - reflexivity.
  - by rewrite IH.
  - rewrite !store_union_assoc. f_equal. apply store_union_comm.
  - by rewrite IH1.
Qed.

(** *** Normalisation *)

Lemma chomsky_normal_form_unfold (l : string) (cs : list (Child Tree)) :
  chomsky_normal_form (Node l cs) =
  match sequence (map cnf_child cs) with
  | Raise e => Raise e
  | Ok cs' =>
      if Nat.ltb 2 (length cs) then
        match child_labels cs with
        | Raise e => Raise e
        | Ok names => Ok (Node l (factor_right l names cs'))
        end
      else Ok (Node l cs')
  end.
Proof. reflexivity. Qed.

Lemma sequence_cnf_child (cs cs' : list (Child Tree)) :
  sequence (map cnf_child cs) = Ok cs' → Forall2 child_cnf cs cs'.
Proof.
  revert cs'. induction cs as [|c cs IH]; intros cs' H; simpl in H.
  - injection H as <-. constructor.
  - destruct (cnf_child c) as [c'|e] eqn:Hc; [|discriminate].
    destruct (sequence (map cnf_child cs)) as [cs''|e]; [|discriminate].
    injection H as <-. constructor; [|by apply IH].
    destruct c as [tok|t]; simpl in Hc.
    + injection Hc as <-. constructor.
    + destruct (chomsky_normal_form t) as [t'|e] eqn:Ht; [|discriminate].
      injection Hc as <-. by constructor.
Qed.

Lemma child_labels_length (cs : list (Child Tree)) (names : list string) :
  child_labels cs = Ok names → length names = length cs.
Proof.
  revert names. induction cs as [|[tok|t] cs IH]; intros names H; simpl in H.
  - by injection H as <-.
  - discriminate.
  - destruct (child_labels cs) as [ls|e]; [|discriminate].
    injection H as <-. simpl. f_equal. by apply IH.
Qed.

Lemma child_labels_names (cs : list (Child Tree)) (names : list string) :
  child_labels cs = Ok names → map child_name cs = map Nonterminal names.
Proof.
  revert names. induction cs as [|[tok|t] cs IH]; intros names H; simpl in H.
  - by injection H as <-.
  - discriminate.
  - destruct (child_labels cs) as [ls|e]; [|discriminate].
    injection H as <-. simpl. f_equal. by apply IH.
Qed.

(** The shape of a successful normalisation of one node. *)
Lemma chomsky_normal_form_inv (l : string) (cs : list (Child Tree)) (t' : Tree) :
  chomsky_normal_form (Node l cs) = Ok t' →
  ∃ cs', Forall2 child_cnf cs cs' ∧
    ((length cs ≤ 2 ∧ t' = Node l cs') ∨
     (2 < length cs ∧ ∃ names, child_labels cs = Ok names ∧
        t' = Node l (factor_right l names cs'))).
Proof.
  rewrite chomsky_normal_form_unfold.
  destruct (sequence (map cnf_child cs)) as [cs'|e] eqn:Hs; [|discriminate].
  intros H. exists cs'. split; [by apply sequence_cnf_child|].
  destruct (Nat.ltb 2 (length cs)) eqn:Hlen.
  - apply Nat.ltb_lt in Hlen. right. split; [exact Hlen|].
    destruct (child_labels cs) as [names|e]; [|discriminate].
    injection H as <-. by exists names.
  - apply Nat.ltb_ge in Hlen. left. split; [exact Hlen|].
    by injection H as <-.
Qed.

Lemma factor_right_short (l : string) (names : list string) (cs : list (Child Tree)) :
  length cs ≤ 2 → factor_right l names cs = cs.
Proof.
  intros H. destruct cs as [|c [|d [|e cs]]]; simpl in *; try reflexivity.
  lia.
Qed.

Lemma chomsky_normal_form_label (t t' : Tree) :
  chomsky_normal_form t = Ok t' → label t' = label t.
Proof.
  destruct t as [l cs]. intros H.
  apply chomsky_normal_form_inv in H as (cs' & _ & [[_ ->]|(_ & names & _ & ->)]);
    reflexivity.
Qed.

Lemma child_cnf_name (c c' : Child Tree) :
  child_cnf c c' → child_name c' = child_name c.
Proof.
  destruct 1 as [tok|t t' H]; simpl; [reflexivity|].
  f_equal. by apply chomsky_normal_form_label.
Qed.

Lemma child_cnf_names (cs cs' : list (Child Tree)) :
  Forall2 child_cnf cs cs' → map child_name cs' = map child_name cs.
Proof.
  induction 1 as [|c c' cs cs' Hc _ IH]; simpl; [reflexivity|].
  f_equal; [by apply child_cnf_name | exact IH].
Qed.

Lemma productions_node (l : string) (cs : list (Child Tree)) :
  production_list (Node l cs) =
  mkProduction l (map child_name cs) :: child_productions cs.
Proof. reflexivity. Qed.

Lemma child_productions_cons (c : Child Tree) (cs : list (Child Tree)) :
  child_productions (c :: cs) =
  match c with Leaf _ => [] | Sub t => production_list t end ++ child_productions cs.
Proof. reflexivity. Qed.

(** The productions of a factored node are those of the cascade and those
    of the children. *)
Lemma productions_factor_right (l cur : string) (names : list string)
    (cs : list (Child Tree)) :
  map child_name cs = map Nonterminal names →
  Permutation (production_list (Node cur (factor_right l names cs)))
              (cascade_rules l cur names ++ child_productions cs).
Proof.
  revert cur names. induction cs as [|c cs IH]; intros cur names Hn.
  - destruct names; [|discriminate]. reflexivity.
  - destruct names as [|n names]; [discriminate|].
    injection Hn as Hc Hn.
    destruct cs as [|d [|e cs]].
    + destruct names; [|discriminate]. simpl. rewrite Hc. reflexivity.
    + destruct names as [|n1 [|n2 names]]; try discriminate.
      simpl in *. rewrite Hc. injection Hn as ->. reflexivity.
    + destruct names as [|n1 [|n2 names]]; try discriminate.
      specialize (IH (new_head l (n1 :: n2 :: names)) (n1 :: n2 :: names) Hn).
      change (factor_right l (n :: n1 :: n2 :: names) (c :: d :: e :: cs))
        with [c; Sub (Node (new_head l (n1 :: n2 :: names))
                           (factor_right l (n1 :: n2 :: names) (d :: e :: cs)))].
      change (cascade_rules l cur (n :: n1 :: n2 :: names))
        with (mkProduction cur [Nonterminal n;
                                Nonterminal (new_head l (n1 :: n2 :: names))]
              :: cascade_rules l (new_head l (n1 :: n2 :: names))
                               (n1 :: n2 :: names)).
      rewrite productions_node.
      rewrite (child_productions_cons c (d :: e :: cs)).
      rewrite (child_productions_cons c), (child_productions_cons (Sub _)).
      change (child_productions []) with (@nil Production).
      rewrite app_nil_r.
      cbn [map child_name label]. rewrite Hc.
      rewrite <- app_comm_cons. constructor.
      rewrite IH, !app_assoc.
      apply Permutation_app_tail, Permutation_app_comm.
Qed.

Lemma nodes_node (l : string) (cs : list (Child Tree)) :
  nodes (Node l cs) = Node l cs :: child_nodes cs.
Proof. reflexivity. Qed.

Lemma child_nodes_cons (c : Child Tree) (cs : list (Child Tree)) :
  child_nodes (c :: cs) =
  match c with Leaf _ => [] | Sub t => nodes t end ++ child_nodes cs.
Proof. reflexivity. Qed.

(** After a successful normalisation the productions of the tree are,
    up to order, the rules of the nodes of the input. *)
Lemma productions_chomsky_normal_form (t t' : Tree) :
  chomsky_normal_form t = Ok t' →
  Permutation (production_list t') (flat_map node_rules (nodes t)).
Proof.
  revert t'. induction t as [l cs IH] using Tree_nested_ind. intros t' H.
  apply chomsky_normal_form_inv in H as (cs' & Hcs & Hshape).
  assert (Hkids : Permutation (child_productions cs')
                              (flat_map node_rules (child_nodes cs))).
  { clear Hshape. induction Hcs as [|c c' cs cs' Hc _ IHcs]; [reflexivity|].
    apply Forall_cons_1 in IH as [IHc IH].
    rewrite child_productions_cons, child_nodes_cons, flat_map_app.
    apply Permutation_app; [|by apply IHcs].
    destruct Hc as [tok|u u' Hu]; [reflexivity | by apply IHc]. }
  rewrite nodes_node. cbn [flat_map]. unfold node_rules at 1. cbn [children label].
  destruct Hshape as [[Hlen ->]|(Hlen & names & Hnames & ->)].
  - apply Nat.ltb_ge in Hlen. rewrite Hlen.
    rewrite productions_node, (child_cnf_names _ _ Hcs).
    simpl. by constructor.
  - apply Nat.ltb_lt in Hlen. rewrite Hlen, Hnames.
    rewrite productions_factor_right.
    + by apply Permutation_app_head.
    + rewrite (child_cnf_names _ _ Hcs). by apply child_labels_names.
Qed.

(** In a tree that normalises, every node with more than two children
    has only subtrees as children. *)
Lemma chomsky_normal_form_nodes (t t' : Tree) :
  chomsky_normal_form t = Ok t' →
  Forall (λ n, 2 < length (children n) →
               ∃ names, child_labels (children n) = Ok names) (nodes t).
Proof.
  revert t'. induction t as [l cs IH] using Tree_nested_ind. intros t' H.
  apply chomsky_normal_form_inv in H as (cs' & Hcs & Hshape).
  rewrite nodes_node. constructor.
  - cbn [children]. intros Hlen.
    destruct Hshape as [[Hle _]|(_ & names & Hnames & _)]; [lia|eauto].
  - clear Hshape. induction Hcs as [|c c' cs cs' Hc _ IHcs]; [constructor|].
    apply Forall_cons_1 in IH as [IHc IH].
    rewrite child_nodes_cons. apply Forall_app. split; [|by apply IHcs].
    destruct Hc as [tok|u u' Hu]; [constructor | by eapply IHc].
Qed.

(** Conversely, a tree normalises when every node with more than two
    children has only subtrees as children. *)
Lemma chomsky_normal_form_total (t : Tree) :
  Forall (λ n, 2 < length (children n) →
               ∃ names, child_labels (children n) = Ok names) (nodes t) →
  ∃ t', chomsky_normal_form t = Ok t'.
Proof.
  induction t as [l cs IH] using Tree_nested_ind. intros H.
  rewrite nodes_node in H. apply Forall_cons_1 in H as [Hroot Hkids].
  assert (Hseq : ∃ cs', sequence (map cnf_child cs) = Ok cs').
  { clear Hroot. induction cs as [|c cs IHcs]; [by exists []|].
    apply Forall_cons_1 in IH as [IHc IH].
    rewrite child_nodes_cons in Hkids. apply Forall_app in Hkids as [Hc Hkids].
    destruct (IHcs IH Hkids) as [cs' Hcs']. simpl. rewrite Hcs'.
    destruct c as [tok|u]; simpl; [eauto|].
    destruct (IHc Hc) as [u' ->]. eauto. }
  destruct Hseq as [cs' Hcs']. rewrite chomsky_normal_form_unfold, Hcs'.
  destruct (Nat.ltb 2 (length cs)) eqn:Hlen; [|eauto].
  apply Nat.ltb_lt in Hlen. destruct (Hroot Hlen) as [names Hnames].
  cbn [children] in Hnames. rewrite Hnames. eauto.
Qed.

(** *** Cascades *)

Lemma cascade_rules_head (l cur : string) (names : list string) :
  ∃ r ps, cascade_rules l cur names = mkProduction cur r :: ps.
Proof. destruct names as [|n [|n1 [|n2 names]]]; simpl; eauto. Qed.

Lemma cascade_rules_length (l cur : string) (names : list string) :
  2 ≤ length names →
  length (cascade_rules l cur names) = length names - 1.
Proof.
  revert cur. induction names as [|n names IH]; intros cur Hlen; simpl in Hlen.
  - lia.
  - destruct names as [|n1 [|n2 names]]; [simpl in *; lia | reflexivity |].
    change (cascade_rules l cur (n :: n1 :: n2 :: names))
      with (mkProduction cur [Nonterminal n;
                              Nonterminal (new_head l (n1 :: n2 :: names))]
            :: cascade_rules l (new_head l (n1 :: n2 :: names))
                             (n1 :: n2 :: names)).
    cbn [length]. rewrite IH; simpl; lia.
Qed.

Lemma cascade_rules_lhs (l cur : string) (names : list string) :
  map lhs (cascade_rules l cur names) = cur :: synthetic_labels l names.
Proof.
  revert cur. induction names as [|n names IH]; intros cur; [reflexivity|].
  destruct names as [|n1 [|n2 names]]; try reflexivity.
  change (cascade_rules l cur (n :: n1 :: n2 :: names))
    with (mkProduction cur [Nonterminal n;
                            Nonterminal (new_head l (n1 :: n2 :: names))]
          :: cascade_rules l (new_head l (n1 :: n2 :: names))
                           (n1 :: n2 :: names)).
  change (synthetic_labels l (n :: n1 :: n2 :: names))
    with (new_head l (n1 :: n2 :: names)
          :: synthetic_labels l (n1 :: n2 :: names)).
  cbn [map lhs]. by rewrite IH.
Qed.

Lemma synthetic_labels_length (l : string) (names : list string) :
  length (synthetic_labels l names) = length names - 2.
Proof.
  induction names as [|n names IH]; [reflexivity|].
  destruct names as [|n1 [|n2 names]]; try reflexivity.
  change (synthetic_labels l (n :: n1 :: n2 :: names))
    with (new_head l (n1 :: n2 :: names)
          :: synthetic_labels l (n1 :: n2 :: names)).
  cbn [length] in *. rewrite IH. lia.
Qed.

(** Every rule of a cascade has at most two right-hand symbols, all of
    them non-terminals; exactly two when the node has at least two
    children. *)
Lemma cascade_rules_shape (l cur : string) (names : list string) :
  Forall (λ p, length (rhs p) ≤ 2 ∧ is_nonlexical p = true ∧
               (2 ≤ length names → length (rhs p) = 2))
         (cascade_rules l cur names).
Proof.
  revert cur. induction names as [|n names IH]; intros cur.
  - repeat constructor. simpl; lia.
  - destruct names as [|n1 [|n2 names]].
    + repeat constructor. simpl; lia.
    + repeat constructor.
    + change (cascade_rules l cur (n :: n1 :: n2 :: names))
        with (mkProduction cur [Nonterminal n;
                                Nonterminal (new_head l (n1 :: n2 :: names))]
              :: cascade_rules l (new_head l (n1 :: n2 :: names))
                               (n1 :: n2 :: names)).
      constructor; [repeat constructor|].
      eapply Forall_impl; [apply IH|]. cbn beta.
      intros p (H1 & H2 & H3). repeat split; try assumption.
      intros _. apply H3. simpl; lia.
Qed.

(** *** The recursion of [productions] *)

Lemma height_node (l : string) (cs : list (Child Tree)) :
  height (Node l cs) =
  S (list_max (map (λ c, match c with Leaf _ => 0 | Sub t => height t end) cs)).
Proof. reflexivity. Qed.

(** [productions] returns the list of the tree when the budget covers
    the height of the tree and raises [RuntimeError] otherwise. *)
Lemma productions_spec (frames : nat) (t : Tree) :
  productions frames t =
  if Nat.leb (height t) frames then Ok (production_list t)
  else Raise RuntimeError.
Proof.
  revert t. induction frames as [|d IH]; intros [l cs]; [reflexivity|].
  rewrite height_node. cbn [productions Nat.leb].
  assert (Hkids :
    sequence (map (λ c, match c with
                        | Leaf _ => Ok []
                        | Sub t' => productions d t'
                        end) cs) =
    if Nat.leb (list_max (map (λ c, match c with
                                    | Leaf _ => 0
                                    | Sub t => height t
                                    end) cs)) d
    then Ok (map (λ c, match c with
                       | Leaf _ => []
                       | Sub t => production_list t
                       end) cs)
    else Raise RuntimeError).
  { induction cs as [|c cs IHcs]; [reflexivity|].
    cbn [map sequence list_max fold_right]. fold (list_max (map (λ c, match c with
                                    | Leaf _ => 0
                                    | Sub t => height t
                                    end) cs)).
    destruct c as [tok|u].
    - rewrite IHcs, Nat.max_0_l. by destruct (Nat.leb _ d).
    - rewrite IH.
      destruct (Nat.leb (height u) d) eqn:Hu.
      + rewrite IHcs. apply Nat.leb_le in Hu.
        destruct (Nat.leb (list_max _) d) eqn:Hrest.
        * apply Nat.leb_le in Hrest.
          by rewrite (proj2 (Nat.leb_le _ _) (Nat.max_lub _ _ _ Hu Hrest)).
        * apply Nat.leb_gt in Hrest.
          assert (Hgt : Nat.leb (Nat.max (height u) (list_max (map (λ c, match c with
                                    | Leaf _ => 0
                                    | Sub t => height t
                                    end) cs))) d = false)
            by (apply Nat.leb_gt; lia).
          by rewrite Hgt.
      + apply Nat.leb_gt in Hu.
        assert (Hgt : Nat.leb (Nat.max (height u) (list_max (map (λ c, match c with
                                    | Leaf _ => 0
                                    | Sub t => height t
                                    end) cs))) d = false)
          by (apply Nat.leb_gt; lia).
        by rewrite Hgt. }
  rewrite Hkids. destruct (Nat.leb _ d); [|reflexivity].
  rewrite <- flat_map_concat_map. reflexivity.
Qed.

Lemma productions_ok (frames : nat) (t : Tree) (ps : list Production) :
  productions frames t = Ok ps ↔ height t ≤ frames ∧ ps = production_list t.
Proof.
  rewrite productions_spec. destruct (Nat.leb (height t) frames) eqn:H.
  - apply Nat.leb_le in H. split; [intros [= <-]; by split | intros [_ ->]; reflexivity].
  - apply Nat.leb_gt in H. split; [discriminate | intros [? _]; lia].
Qed.

Lemma productions_raise (frames : nat) (t : Tree) (e : exn) :
  productions frames t = Raise e ↔ frames < height t ∧ e = RuntimeError.
Proof.
  rewrite productions_spec. destruct (Nat.leb (height t) frames) eqn:H.
  - apply Nat.leb_le in H. split; [discriminate | intros [? _]; lia].
  - apply Nat.leb_gt in H. split; [intros [= <-]; by split | intros [_ ->]; reflexivity].
Qed.

(** *** The loops *)

Lemma add_production_spec (p : Production) (st : Store) :
  add_production p st = (Ok tt, store_union st (single p)).
Proof.
  unfold add_production, single, terminal_add, binary_add.
  destruct (is_lexical p); f_equal; apply store_eq; simpl;
    rewrite ?union_empty_r_L; try reflexivity; apply comm_L, _.
Qed.

Lemma for_in_add_production (ps : list Production) (st : Store) :
  for_in ps add_production st = (Ok tt, store_union st (classified ps)).
Proof.
  revert st. induction ps as [|p ps IH]; intros st; simpl.
  - unfold ret. by rewrite store_union_empty_r.
  - unfold bind. rewrite add_production_spec, IH.
    f_equal. unfold classified; simpl. by rewrite store_union_assoc.
Qed.

Lemma try_body_ok (sent sent' : Tree) (ps : list Production) (st : Store) :
  chomsky_normal_form sent = Ok sent' →
  productions recursion_budget sent' = Ok ps →
  try_body sent st = (Ok tt, store_union st (classified ps)).
Proof.
  intros H Hps. unfold try_body, bind, call. rewrite H, Hps.
  apply for_in_add_production.
Qed.

Lemma try_body_raise (sent : Tree) (e : exn) (st : Store) :
  chomsky_normal_form sent = Raise e → try_body sent st = (Raise e, st).
Proof. intros H. unfold try_body, bind, call. by rewrite H. Qed.

Lemma try_body_raise_productions (sent sent' : Tree) (e : exn) (st : Store) :
  chomsky_normal_form sent = Ok sent' →
  productions recursion_budget sent' = Raise e →
  try_body sent st = (Raise e, st).
Proof. intros H Hps. unfold try_body, bind, call. by rewrite H, Hps. Qed.

Lemma per_sentence_spec (sent : Tree) (st : Store) :
  per_sentence sent st = (Ok tt, store_union st (classified (emitted sent))).
Proof.
  unfold per_sentence, emitted.
  destruct (String.eqb (label sent) "CODE"); simpl.
  - unfold ret. by rewrite store_union_empty_r.
  - unfold try_except_pass.
    destruct (chomsky_normal_form sent) as [sent'|e] eqn:H.
    + destruct (productions recursion_budget sent') as [ps|e] eqn:Hps.
      * by rewrite (try_body_ok _ _ _ _ H Hps).
      * rewrite (try_body_raise_productions _ _ _ _ H Hps).
        by rewrite store_union_empty_r.
    + rewrite (try_body_raise _ _ _ H). by rewrite store_union_empty_r.
Qed.

Lemma contribution_spec (sent : Tree) :
  contribution sent = classified (emitted sent).
Proof.
  unfold contribution. rewrite per_sentence_spec. simpl.
  apply store_union_empty_l.
Qed.

Lemma for_in_per_sentence (sents : list Tree) (st : Store) :
  for_in sents per_sentence st =
  (Ok tt, store_union st (store_unions (map contribution sents))).
Proof.
  revert st. induction sents as [|s sents IH]; intros st; simpl.
  - unfold ret. by rewrite store_union_empty_r.
  - unfold bind. rewrite per_sentence_spec, IH, contribution_spec.
    by rewrite store_union_assoc.
Qed.

Lemma for_in_app {A : Type} (xs ys : list A) (body : A → M unit) (st : Store) :
  for_in (xs ++ ys) body st = (for_in xs body ;; for_in ys body) st.
Proof.
  revert st. induction xs as [|x xs IH]; intros st; simpl.
  - reflexivity.
  - unfold bind. destruct (body x st) as [[[]|e] st']; [apply IH | reflexivity].
Qed.

Lemma main_loop_sentences (reader : CorpusReader) (st : Store) :
  main_loop reader st = for_in (sentences reader) per_sentence st.
Proof.
  unfold main_loop, sentences. revert st.
  induction (fileids reader) as [|f fs IH]; intros st; simpl.
  - reflexivity.
  - rewrite for_in_app. unfold bind.
    destruct (for_in (parsed_sents reader f) per_sentence st) as [[[]|e] st'];
      [apply IH | reflexivity].
Qed.

Lemma run_extract (reader : CorpusReader) :
  run reader = (Ok tt, extract (sentences reader)).
Proof.
  unfold run, extract. rewrite main_loop_sentences, for_in_per_sentence.
  reflexivity.
Qed.

Lemma extract_spec (sents : list Tree) :
  extract sents = store_unions (map contribution sents).
Proof.
  unfold extract. rewrite for_in_per_sentence. simpl.
  apply store_union_empty_l.
Qed.

(** *** Membership in the accumulated sets *)

Lemma elem_of_terminal_unions (s : string) (xs : list Store) :
  s ∈ terminal (store_unions xs) ↔ ∃ x, In x xs ∧ s ∈ terminal x.
Proof.
  induction xs as [|x xs IH]; simpl.
  - split; [intros H; by apply not_elem_of_empty in H | intros (x & [] & _)].
  - rewrite elem_of_union, IH. split.
    + intros [H|(y & Hy & H)]; eauto.
    + intros (y & [<-|Hy] & H); eauto.
Qed.

Lemma elem_of_binary_unions (s : string) (xs : list Store) :
  s ∈ binary (store_unions xs) ↔ ∃ x, In x xs ∧ s ∈ binary x.
Proof.
  induction xs as [|x xs IH]; simpl.
  - split; [intros H; by apply not_elem_of_empty in H | intros (x & [] & _)].
  - rewrite elem_of_union, IH. split.
    + intros [H|(y & Hy & H)]; eauto.
    + intros (y & [<-|Hy] & H); eauto.
Qed.

Lemma elem_of_terminal_single (s : string) (p : Production) :
  s ∈ terminal (single p) ↔ is_lexical p = true ∧ s = unicode_repr p.
Proof.
  unfold single. destruct (is_lexical p); simpl.
  - rewrite elem_of_singleton. tauto.
  - split; [intros H; by apply not_elem_of_empty in H | intros [? _]; discriminate].
Qed.

Lemma elem_of_binary_single (s : string) (p : Production) :
  s ∈ binary (single p) ↔ is_lexical p = false ∧ s = unicode_repr p.
Proof.
  unfold single. destruct (is_lexical p); simpl.
  - split; [intros H; by apply not_elem_of_empty in H | intros [? _]; discriminate].
  - rewrite elem_of_singleton. tauto.
Qed.

Lemma elem_of_terminal_classified (s : string) (ps : list Production) :
  s ∈ terminal (classified ps) ↔
  ∃ p, In p ps ∧ is_lexical p = true ∧ s = unicode_repr p.
Proof.
  unfold classified. rewrite elem_of_terminal_unions. split.
  - intros (x & Hx & H). apply in_map_iff in Hx as (p & <- & Hp).
    apply elem_of_terminal_single in H. eauto.
  - intros (p & Hp & H). exists (single p). split; [by apply in_map|].
    by apply elem_of_terminal_single.
Qed.

Lemma elem_of_binary_classified (s : string) (ps : list Production) :
  s ∈ binary (classified ps) ↔
  ∃ p, In p ps ∧ is_lexical p = false ∧ s = unicode_repr p.
Proof.
  unfold classified. rewrite elem_of_binary_unions. split.
  - intros (x & Hx & H). apply in_map_iff in Hx as (p & <- & Hp).
    apply elem_of_binary_single in H. eauto.
  - intros (p & Hp & H). exists (single p). split; [by apply in_map|].
    by apply elem_of_binary_single.
Qed.

Lemma elem_of_terminal_extract (s : string) (sents : list Tree) :
  s ∈ terminal (extract sents) ↔
  ∃ sent p, In sent sents ∧ In p (emitted sent) ∧
            is_lexical p = true ∧ s = unicode_repr p.
Proof.
  rewrite extract_spec, elem_of_terminal_unions. split.
  - intros (x & Hx & H). apply in_map_iff in Hx as (sent & <- & Hsent).
    rewrite contribution_spec in H.
    apply elem_of_terminal_classified in H as (p & ? & ? & ?). eauto 6.
  - intros (sent & p & Hsent & Hp & Hlex & ->).
    exists (contribution sent). split; [by apply in_map|].
    rewrite contribution_spec. apply elem_of_terminal_classified. eauto.
Qed.

Lemma elem_of_binary_extract (s : string) (sents : list Tree) :
  s ∈ binary (extract sents) ↔
  ∃ sent p, In sent sents ∧ In p (emitted sent) ∧
            is_lexical p = false ∧ s = unicode_repr p.
Proof.
  rewrite extract_spec, elem_of_binary_unions. split.
  - intros (x & Hx & H). apply in_map_iff in Hx as (sent & <- & Hsent).
    rewrite contribution_spec in H.
    apply elem_of_binary_classified in H as (p & ? & ? & ?). eauto 6.
  - intros (sent & p & Hsent & Hp & Hlex & ->).
    exists (contribution sent). split; [by apply in_map|].
    rewrite contribution_spec. apply elem_of_binary_classified. eauto.
Qed.

(** *** Sentences that add nothing *)

(** The [try] body raises when the normalisation raises, or when it
    returns a tree on which [productions] raises. *)
Lemma raises_inv (sent : Tree) :
  raises sent ↔
  (∃ e, chomsky_normal_form sent = Raise e) ∨
  (∃ sent' e, chomsky_normal_form sent = Ok sent' ∧
              productions recursion_budget sent' = Raise e).
Proof.
  split.
  - intros (e & st & H).
    destruct (chomsky_normal_form sent) as [sent'|e'] eqn:Hcnf; [|eauto].
    destruct (productions recursion_budget sent') as [ps|e'] eqn:Hps; [|eauto 6].
    rewrite (try_body_ok _ _ _ _ Hcnf Hps) in H. discriminate.
  - intros [[e H]|(sent' & e & H & Hps)]; exists e, empty_store.
    + by rewrite (try_body_raise _ _ _ H).
    + by rewrite (try_body_raise_productions _ _ _ _ H Hps).
Qed.

Lemma raises_emitted (sent : Tree) : raises sent → emitted sent = [].
Proof.
  intros [[e H]|(sent' & e & H & Hps)]%raises_inv; unfold emitted;
    rewrite H, ?Hps; by destruct (String.eqb _ _).
Qed.

Lemma raises_try_body (sent : Tree) (st : Store) :
  raises sent → snd (try_body sent st) = st.
Proof.
  intros [[e H]|(sent' & e & H & Hps)]%raises_inv.
  - by rewrite (try_body_raise _ _ _ H).
  - by rewrite (try_body_raise_productions _ _ _ _ H Hps).
Qed.

Lemma emitted_raise (sent : Tree) (e : exn) :
  chomsky_normal_form sent = Raise e → emitted sent = [].
Proof.
  intros H. unfold emitted. rewrite H. by destruct (String.eqb _ _).
Qed.

Lemma emitted_code (sent : Tree) : label sent = "CODE" → emitted sent = [].
Proof. intros H. unfold emitted. by rewrite H. Qed.

Lemma emitted_nil_per_sentence (sent : Tree) (st : Store) :
  emitted sent = [] → per_sentence sent st = (Ok tt, st).
Proof.
  intros H. rewrite per_sentence_spec, H. unfold classified; simpl.
  by rewrite store_union_empty_r.
Qed.

Lemma emitted_nil_extract (sent : Tree) (before after : list Tree) :
  emitted sent = [] →
  extract (before ++ sent :: after) = extract (before ++ after).
Proof.
  intros H. rewrite !extract_spec, !map_app, !store_unions_app. simpl.
  rewrite contribution_spec, H. unfold classified; simpl.
  by rewrite store_union_empty_l.
Qed.

(** *** Shapes of the emitted productions *)

Lemma emitted_ok (sent sent' : Tree) (ps : list Production) :
  label sent ≠ "CODE" → chomsky_normal_form sent = Ok sent' →
  productions recursion_budget sent' = Ok ps →
  emitted sent = ps ∧ ps = production_list sent'.
Proof.
  intros Hl H Hps. unfold emitted. apply String.eqb_neq in Hl.
  rewrite Hl, H, Hps. split; [reflexivity|]. by apply productions_ok in Hps as [_ ->].
Qed.

Lemma emitted_height (sent sent' : Tree) :
  label sent ≠ "CODE" → chomsky_normal_form sent = Ok sent' →
  height sent' ≤ recursion_budget →
  emitted sent = production_list sent'.
Proof.
  intros Hl H Hh.
  assert (Hps : productions recursion_budget sent' = Ok (production_list sent'))
    by (by apply productions_ok).
  by destruct (emitted_ok _ _ _ Hl H Hps) as [-> _].
Qed.

Lemma emitted_inv (sent : Tree) (p : Production) :
  In p (emitted sent) →
  label sent ≠ "CODE" ∧
  ∃ sent', chomsky_normal_form sent = Ok sent' ∧
           productions recursion_budget sent' = Ok (production_list sent') ∧
           In p (production_list sent').
Proof.
  unfold emitted. destruct (String.eqb (label sent) "CODE") eqn:Hl; [intros []|].
  apply String.eqb_neq in Hl.
  destruct (chomsky_normal_form sent) as [sent'|e]; [|intros []].
  destruct (productions recursion_budget sent') as [ps|e] eqn:Hps; [|intros []].
  pose proof (proj1 (productions_ok _ _ _) Hps) as [_ ->]. eauto.
Qed.

(** Every emitted production is a rule of a node of the sentence. *)
Lemma emitted_node_rules (sent : Tree) (p : Production) :
  In p (emitted sent) → ∃ n, In n (nodes sent) ∧ In p (node_rules n).
Proof.
  intros H. apply emitted_inv in H as (_ & sent' & Hcnf & _ & Hp).
  apply (Permutation_in _ (productions_chomsky_normal_form _ _ Hcnf)) in Hp.
  apply in_flat_map in Hp. exact Hp.
Qed.

Lemma node_rules_in_productions (sent sent' n : Tree) (p : Production) :
  chomsky_normal_form sent = Ok sent' → In n (nodes sent) →
  In p (node_rules n) → In p (production_list sent').
Proof.
  intros Hcnf Hn Hp.
  apply (Permutation_in _
           (Permutation_sym (productions_chomsky_normal_form _ _ Hcnf))).
  apply in_flat_map. eauto.
Qed.

Lemma node_rules_shape (n : Tree) (p : Production) :
  In p (node_rules n) →
  length (rhs p) ≤ 2 ∧
  (is_lexical p = false → forallb is_nonterminal (rhs p) = true).
Proof.
  unfold node_rules. destruct (Nat.ltb 2 (length (children n))) eqn:Hlen.
  - destruct (child_labels (children n)) as [names|e]; [|intros []].
    intros Hp.
    pose proof (cascade_rules_shape (label n) (label n) names) as Hsh.
    rewrite List.Forall_forall in Hsh. destruct (Hsh p Hp) as (H1 & H2 & _).
    split; [exact H1 | intros _; exact H2].
  - apply Nat.ltb_ge in Hlen. intros [<-|[]]. cbn [rhs].
    rewrite length_map. split; [exact Hlen|].
    unfold is_lexical, is_nonlexical. cbn [rhs].
    by intros H%negb_false_iff.
Qed.

Lemma lexical_has_terminal (p : Production) :
  is_lexical p = true →
  1 ≤ length (rhs p) ∧ existsb is_terminal (rhs p) = true.
Proof.
  unfold is_lexical, is_nonlexical. intros H%negb_true_iff.
  induction (rhs p) as [|x xs IH]; simpl in *; [discriminate|].
  split; [lia|]. unfold is_terminal at 1.
  destruct (is_nonterminal x); simpl in *; [by apply IH | reflexivity].
Qed.

Lemma preterminal_form_nodes (t : Tree) :
  preterminal_form t = true → Forall preterminal_node (nodes t).
Proof.
  induction t as [l cs IH] using Tree_nested_ind. intros H.
  destruct cs as [|c cs]; [discriminate|].
  destruct c as [tok|t]; [destruct cs as [|c cs]|].
  - constructor; [left; by exists tok | constructor].
  - discriminate.
  - assert (Hall : forallb (λ c, match c with
                                 | Leaf _ => false
                                 | Sub t' => preterminal_form t'
                                 end) (Sub t :: cs) = true) by exact H.
    clear H. rewrite nodes_node. constructor.
    + right. split; [discriminate|]. cbn [children].
      clear IH. induction (Sub t :: cs) as [|c cs' IHcs]; [by exists []|].
      simpl in Hall. apply andb_true_iff in Hall as [Hc Hall].
      destruct c as [tok|u]; [discriminate|].
      destruct (IHcs Hall) as [names Hnames].
      exists (label u :: names). simpl. by rewrite Hnames.
    + induction (Sub t :: cs) as [|c cs' IHcs]; [constructor|].
      simpl in Hall. apply andb_true_iff in Hall as [Hc Hall].
      apply Forall_cons_1 in IH as [IHc IH].
      rewrite child_nodes_cons. apply Forall_app. split; [|by apply IHcs].
      destruct c as [tok|u]; [constructor | by apply IHc].
Qed.

Lemma preterminal_node_rules (n : Tree) (p : Production) :
  preterminal_node n → In p (node_rules n) → normal_shape p.
Proof.
  intros [[tok Htok]|[Hne [names Hnames]]]; unfold node_rules.
  - rewrite Htok. simpl. intros [<-|[]]. left. split; [reflexivity|by exists tok].
  - rewrite Hnames.
    pose proof (child_labels_length _ _ Hnames) as Hlen.
    destruct (Nat.ltb 2 (length (children n))) eqn:Hlt.
    + apply Nat.ltb_lt in Hlt. intros Hp.
      pose proof (cascade_rules_shape (label n) (label n) names) as Hsh.
      rewrite List.Forall_forall in Hsh. destruct (Hsh p Hp) as (_ & H2 & H3).
      right. unfold is_lexical. rewrite H2. repeat split; [|exact H2].
      right. apply H3. lia.
    + apply Nat.ltb_ge in Hlt. intros [<-|[]].
      rewrite (child_labels_names _ _ Hnames).
      assert (Hnt : forallb is_nonterminal (map Nonterminal names) = true).
      { clear. induction names; simpl; auto. }
      right. unfold is_lexical, is_nonlexical. cbn [rhs]. rewrite Hnt.
      repeat split. rewrite length_map.
      destruct (children n) as [|c [|d [|e cs]]]; simpl in *;
        [congruence | left | right | ]; lia.
Qed.

Lemma emitted_normal_shape (sent : Tree) (p : Production) :
  preterminal_form sent = true → In p (emitted sent) → normal_shape p.
Proof.
  intros Hpre Hp. apply emitted_node_rules in Hp as (n & Hn & Hp).
  apply preterminal_form_nodes in Hpre. rewrite List.Forall_forall in Hpre.
  eapply preterminal_node_rules; eauto.
Qed.

Lemma internal_nodes_nodes (t n : Tree) : In n (internal_nodes t) → In n (nodes t).
Proof. destruct t as [l cs]. intros H. right. exact H. Qed.

(** ** Properties of the extractor *)

(** C1. A sentence on which the [try] body raises adds nothing to
    [terminal] or to [binary]: the store is untouched at the moment of
    the exception and after the [except], whatever the sets held before,
    and a corpus with such a sentence among others gives exactly the sets
    of the corpus without it. *)
Theorem failed_sentence_adds_nothing (sent : Tree) :
  raises sent →
  (∀ st, snd (try_body sent st) = st) ∧
  (∀ st, terminal (snd (per_sentence sent st)) = terminal st ∧
         binary (snd (per_sentence sent st)) = binary st) ∧
  contribution sent = empty_store ∧
  (∀ before after,
      extract (before ++ sent :: after) = extract (before ++ after)) ∧
  (∀ reader reader' before after,
      sentences reader = before ++ sent :: after →
      sentences reader' = before ++ after →
      run reader = run reader').
Proof.
  intros H. pose proof (raises_emitted _ H) as Hnil.
  repeat split.
  - intros st. by apply raises_try_body.
  - by rewrite (emitted_nil_per_sentence _ st Hnil).
  - by rewrite (emitted_nil_per_sentence _ st Hnil).
  - unfold contribution. by rewrite (emitted_nil_per_sentence _ _ Hnil).
  - intros before after. by apply emitted_nil_extract.
  - intros reader reader' before after Hr Hr'.
    rewrite !run_extract, Hr, Hr'. f_equal. by apply emitted_nil_extract.
Qed.

(** C4. A sentence whose root label is [CODE] is skipped: it leaves both
    sets as they were and the corpus gives the same sets with or without
    it. *)
Theorem code_sentence_skipped (sent : Tree) :
  label sent = "CODE" →
  (∀ st, per_sentence sent st = (Ok tt, st)) ∧
  contribution sent = empty_store ∧
  (∀ before after,
      extract (before ++ sent :: after) = extract (before ++ after)) ∧
  (∀ reader reader' before after,
      sentences reader = before ++ sent :: after →
      sentences reader' = before ++ after →
      run reader = run reader').
Proof.
  intros H. pose proof (emitted_code _ H) as Hnil.
  repeat split.
  - intros st. by apply emitted_nil_per_sentence.
  - unfold contribution. by rewrite (emitted_nil_per_sentence _ _ Hnil).
  - intros before after. by apply emitted_nil_extract.
  - intros reader reader' before after Hr Hr'.
    rewrite !run_extract, Hr, Hr'. f_equal. by apply emitted_nil_extract.
Qed.

(** C5. An exception raised in the [try] body of a sentence is caught
    there: the statement for that sentence completes normally, the sets
    are as before, the loop goes on with the remaining sentences, and the
    run over any reader completes without an exception. *)
Theorem sentence_failure_is_caught (sent : Tree) (e : exn) (st : Store) :
  fst (try_body sent st) = Raise e →
  per_sentence sent st = (Ok tt, st) ∧
  (∀ rest, for_in (sent :: rest) per_sentence st =
           for_in rest per_sentence st) ∧
  (∀ reader, fst (run reader) = Ok tt).
Proof.
  intros H.
  assert (Hnil : emitted sent = []).
  { apply raises_emitted. by exists e, st. }
  split; [|split].
  - by apply emitted_nil_per_sentence.
  - intros rest. simpl. unfold bind.
    by rewrite (emitted_nil_per_sentence _ _ Hnil).
  - intros reader. by rewrite run_extract.
Qed.

(** C7. Adding a string that a set already holds leaves the store
    unchanged. The text of every production the loop is given for a
    sentence of the corpus occurs exactly once among the lines printed
    for its set, however often the production occurs in the corpus, and
    the lines printed for a set are its members. Visiting every sentence
    a second time changes nothing, and running the loops again over the
    same corpus, on the sets the first run produced, leaves them as they
    are. *)
Theorem duplicate_insertion_is_invisible (reader : CorpusReader) :
  (∀ s st, s ∈ terminal st → terminal_add s st = (Ok tt, st)) ∧
  (∀ s st, s ∈ binary st → binary_add s st = (Ok tt, st)) ∧
  (∀ sent p, In sent (sentences reader) → In p (emitted sent) →
     (is_lexical p = true →
      count_occ string_dec (terminal_lines (snd (run reader)))
                (unicode_repr p) = 1) ∧
     (is_lexical p = false →
      count_occ string_dec (binary_lines (snd (run reader)))
                (unicode_repr p) = 1)) ∧
  (∀ s, In s (terminal_lines (snd (run reader))) ↔
        ∃ sent p, In sent (sentences reader) ∧ In p (emitted sent) ∧
                  is_lexical p = true ∧ s = unicode_repr p) ∧
  (∀ s, In s (binary_lines (snd (run reader))) ↔
        ∃ sent p, In sent (sentences reader) ∧ In p (emitted sent) ∧
                  is_lexical p = false ∧ s = unicode_repr p) ∧
  (∀ s, s ∈ terminal_lines (snd (run reader)) ↔ s ∈ terminal (snd (run reader))) ∧
  (∀ s, s ∈ binary_lines (snd (run reader)) ↔ s ∈ binary (snd (run reader))) ∧
  NoDup (terminal_lines (snd (run reader))) ∧
  NoDup (binary_lines (snd (run reader))) ∧
  (∀ sents, extract (sents ++ sents) = extract sents) ∧
  main_loop reader (snd (run reader)) = run reader.
Proof.
  assert (Ht : ∀ s, In s (terminal_lines (snd (run reader))) ↔
        ∃ sent p, In sent (sentences reader) ∧ In p (emitted sent) ∧
                  is_lexical p = true ∧ s = unicode_repr p).
  { intros s. rewrite run_extract. cbn [snd]. unfold terminal_lines.
    rewrite <- list_elem_of_In, elem_of_elements.
    apply elem_of_terminal_extract. }
  assert (Hb : ∀ s, In s (binary_lines (snd (run reader))) ↔
        ∃ sent p, In sent (sentences reader) ∧ In p (emitted sent) ∧
                  is_lexical p = false ∧ s = unicode_repr p).
  { intros s. rewrite run_extract. cbn [snd]. unfold binary_lines.
    rewrite <- list_elem_of_In, elem_of_elements.
    apply elem_of_binary_extract. }
  assert (Hnt : NoDup (terminal_lines (snd (run reader))))
    by (unfold terminal_lines; apply NoDup_elements).
  assert (Hnb : NoDup (binary_lines (snd (run reader))))
    by (unfold binary_lines; apply NoDup_elements).
  split; [|split; [|split; [|split; [|split; [|split; [|split;
    [|split; [|split; [|split]]]]]]]]]; try assumption.
  - intros s st H. unfold terminal_add. f_equal. apply store_eq; simpl;
      [|reflexivity]. by apply subseteq_union_1_L, singleton_subseteq_l.
  - intros s st H. unfold binary_add. f_equal. apply store_eq; simpl;
      [reflexivity|]. by apply subseteq_union_1_L, singleton_subseteq_l.
  - intros sent p Hsent Hp. split; intros Hk.
    + apply (proj1 (NoDup_count_occ' string_dec _)
                     (proj1 (NoDup_ListNoDup _) Hnt)).
      apply Ht. eauto 6.
    + apply (proj1 (NoDup_count_occ' string_dec _)
                     (proj1 (NoDup_ListNoDup _) Hnb)).
      apply Hb. eauto 6.
  - intros s. unfold terminal_lines. apply elem_of_elements.
  - intros s. unfold binary_lines. apply elem_of_elements.
  - intros sents. rewrite !extract_spec, map_app, store_unions_app.
    apply store_union_idemp.
  - rewrite run_extract. simpl.
    rewrite main_loop_sentences, for_in_per_sentence.
    rewrite extract_spec. by rewrite store_union_idemp.
Qed.

(** C8. What a sentence adds does not depend on the sets it meets;
    joining stores is associative and commutative; the final sets are
    the union of what the sentences add one by one; and two corpora with
    the same sentences in a different order give the same sets. *)
Theorem sentence_order_is_irrelevant (reader reader' : CorpusReader) :
  Permutation (sentences reader) (sentences reader') →
  run reader = run reader' ∧
  snd (run reader) = store_unions (map contribution (sentences reader)) ∧
  (∀ sent st, per_sentence sent st = (Ok tt, store_union st (contribution sent))) ∧
  (∀ a b c, store_union a (store_union b c) = store_union (store_union a b) c) ∧
  (∀ a b, store_union a b = store_union b a).
Proof.
  intros H. repeat split.
  - rewrite !run_extract, !extract_spec. f_equal.
    by apply store_unions_perm, Permutation_map.
  - rewrite run_extract. apply extract_spec.
  - intros sent st. by rewrite per_sentence_spec, contribution_spec.
  - apply store_union_assoc.
  - apply store_union_comm.
Qed.

(** The productions the loop sees for [the_cat_sat], in order, each with
    its kind and its text. *)
Lemma emitted_the_cat_sat :
  3 ≤ recursion_budget →
  emitted the_cat_sat =
  [ mkProduction "S" [Nonterminal "NP"; Nonterminal "VP"];
    mkProduction "NP" [Nonterminal "DT"; Nonterminal "NN"];
    mkProduction "DT" [Terminal "the"];
    mkProduction "NN" [Terminal "cat"];
    mkProduction "VP" [Nonterminal "VBZ"];
    mkProduction "VBZ" [Terminal "sat"] ].
Proof.
  intros H. by rewrite (emitted_height the_cat_sat the_cat_sat).
Qed.

(** C9. For [(S (NP (DT the) (NN cat)) (VP (VBZ sat)))] the set [binary]
    holds the text of [S -> NP VP] and of [NP -> DT NN], and the set
    [terminal] holds the text of [DT -> the], [NN -> cat] and
    [VBZ -> sat]; the two sets are exactly the six strings shown. The
    tree has three levels of nodes, so [productions] needs three nested
    calls. *)
Theorem example_the_cat_sat :
  3 ≤ recursion_budget →
  let st := snd (run (one_file [the_cat_sat])) in
  unicode_repr (mkProduction "S" [Nonterminal "NP"; Nonterminal "VP"]) ∈ binary st ∧
  unicode_repr (mkProduction "NP" [Nonterminal "DT"; Nonterminal "NN"]) ∈ binary st ∧
  unicode_repr (mkProduction "DT" [Terminal "the"]) ∈ terminal st ∧
  unicode_repr (mkProduction "NN" [Terminal "cat"]) ∈ terminal st ∧
  unicode_repr (mkProduction "VBZ" [Terminal "sat"]) ∈ terminal st ∧
  binary st = {[ "S -> NP VP"; "NP -> DT NN"; "VP -> VBZ" ]} ∧
  terminal st = {[ "DT -> 'the'"; "NN -> 'cat'"; "VBZ -> 'sat'" ]}.
Proof.
  intros Hbudget. cbv zeta. rewrite run_extract. cbn [snd].
  change (sentences (one_file [the_cat_sat])) with [the_cat_sat].
  rewrite extract_spec. cbn [map store_unions foldr].
  rewrite store_union_empty_r, contribution_spec, (emitted_the_cat_sat Hbudget).
  unfold classified, store_unions, single. simpl.
  repeat split; set_solver.
Qed.

(** C3, as the code has it. Each emitted production is added by exactly
    one of the two [add] calls, the one its kind selects, so its text is
    in [terminal] when it is lexical and in [binary] otherwise, and never
    in neither. The text is in both sets only when another emitted
    production of the other kind has the same text. *)
Theorem production_added_to_one_set (sents : list Tree) (sent : Tree)
    (p : Production) :
  In sent sents → In p (emitted sent) →
  let st := extract sents in
  ((is_lexical p = true ∧ add_production p = terminal_add (unicode_repr p)) ∨
   (is_lexical p = false ∧ add_production p = binary_add (unicode_repr p))) ∧
  (is_lexical p = true → unicode_repr p ∈ terminal st) ∧
  (is_lexical p = false → unicode_repr p ∈ binary st) ∧
  (unicode_repr p ∈ terminal st ∨ unicode_repr p ∈ binary st) ∧
  (unicode_repr p ∈ terminal st → unicode_repr p ∈ binary st →
   ∃ sent' q, In sent' sents ∧ In q (emitted sent') ∧
              is_lexical q = negb (is_lexical p) ∧
              unicode_repr q = unicode_repr p).
Proof.
  intros Hsent Hp. cbv zeta.
  assert (Hlex : is_lexical p = true → unicode_repr p ∈ terminal (extract sents)).
  { intros H. apply elem_of_terminal_extract. eauto 6. }
  assert (Hnon : is_lexical p = false → unicode_repr p ∈ binary (extract sents)).
  { intros H. apply elem_of_binary_extract. eauto 6. }
  repeat split; try assumption.
  - unfold add_production. destruct (is_lexical p); [left | right]; by split.
  - destruct (is_lexical p); [left | right]; auto.
  - intros Ht Hb. destruct (is_lexical p) eqn:Hk.
    + apply elem_of_binary_extract in Hb as (sent' & q & ? & ? & ? & ?).
      exists sent', q. by repeat split.
    + apply elem_of_terminal_extract in Ht as (sent' & q & ? & ? & ? & ?).
      exists sent', q. by repeat split.
Qed.

(** C2, as the code has it. For every corpus, [binary] holds exactly the
    texts of the non-lexical productions the loop is given for its
    sentences and [terminal] exactly the texts of the lexical ones.
    Every production the loop adds has at most two right-hand symbols:
    all of them non-terminals when it goes to [binary], at least one of
    them a token when it goes to [terminal]. For a sentence in
    preterminal form (no childless node, a token only as an only child),
    the productions added have the shapes of a normal form: one or two
    non-terminals in [binary], exactly one token in [terminal]. *)
Theorem output_production_shapes (sents : list Tree) :
  (∀ s, s ∈ binary (extract sents) ↔
        ∃ sent p, In sent sents ∧ In p (emitted sent) ∧
                  is_lexical p = false ∧ s = unicode_repr p) ∧
  (∀ s, s ∈ terminal (extract sents) ↔
        ∃ sent p, In sent sents ∧ In p (emitted sent) ∧
                  is_lexical p = true ∧ s = unicode_repr p) ∧
  (∀ sent p, In sent sents → In p (emitted sent) →
     length (rhs p) ≤ 2 ∧
     (is_lexical p = false → forallb is_nonterminal (rhs p) = true) ∧
     (is_lexical p = true →
      1 ≤ length (rhs p) ∧ existsb is_terminal (rhs p) = true)) ∧
  (∀ sent p, In sent sents → preterminal_form sent = true →
     In p (emitted sent) →
     (is_lexical p = true ∧ ∃ tok, rhs p = [Terminal tok]) ∨
     (is_lexical p = false ∧
      (length (rhs p) = 1 ∨ length (rhs p) = 2) ∧
      forallb is_nonterminal (rhs p) = true)).
Proof.
  split; [|split; [|split]].
  - intros s. apply elem_of_binary_extract.
  - intros s. apply elem_of_terminal_extract.
  - intros sent p _ Hp.
    apply emitted_node_rules in Hp as (n & _ & Hp).
    apply node_rules_shape in Hp as [Hlen Hnt].
    split; [exact Hlen|]. split; [exact Hnt|].
    apply lexical_has_terminal.
  - intros sent p _ Hpre Hp.
    exact (emitted_normal_shape _ _ Hpre Hp).
Qed.

(** No production whose right-hand side is a single token prints as
    [NP -> DT 'cat']: such a text has a quote right after the arrow. *)
Lemma no_single_token_text (l tok : string) :
  unicode_repr (mkProduction l [Terminal tok]) ≠ "NP -> DT 'cat'".
Proof.
  unfold unicode_repr, PyStr.unicode_repr. cbn [lhs rhs map symbol_repr PyStr.join].
  assert (Hq : PyStr.quote_of tok = PyStr.squote ∨
               PyStr.quote_of tok = PyStr.dquote).
  { unfold PyStr.quote_of. destruct (_ && _); auto. }
  generalize (PyStr.escape (PyStr.quote_of tok) tok
              ++ String (PyStr.quote_of tok) EmptyString)%string.
  intros r H.
  do 3 (destruct l as [|? l]; simpl in H; [try discriminate H | injection H as -> H]).
  - injection H as Hc _. destruct Hq as [Hq|Hq]; rewrite Hq in Hc; discriminate Hc.
  - repeat (destruct l as [|? l]; simpl in H;
            [discriminate H | (injection H as -> H || discriminate H)]).
Qed.

(** C6, as the code has it. In a tree that normalises, a node with
    [k > 2] children has only subtrees as children and is rewritten into
    a right-branching cascade: it yields exactly [k - 1] productions,
    each with two non-terminals on the right, whose left-hand sides are
    the node's label and [k - 2] synthetic labels (two productions and
    one synthetic label when [k = 3]). The productions of the normalised
    tree ([production_list], the list [productions] returns whenever it
    returns) are exactly the rules of the nodes of the input, and no
    production the loop adds to a set, for any sentence, has three or
    more right-hand symbols. *)
Theorem wide_node_becomes_cascade (sent sent' n : Tree) :
  chomsky_normal_form sent = Ok sent' →
  In n (nodes sent) →
  2 < length (children n) →
  ∃ names,
    child_labels (children n) = Ok names ∧
    node_rules n = cascade_rules (label n) (label n) names ∧
    (∀ p, In p (node_rules n) → In p (production_list sent')) ∧
    length (node_rules n) = length (children n) - 1 ∧
    Forall (λ p, length (rhs p) = 2 ∧ is_nonlexical p = true) (node_rules n) ∧
    map lhs (node_rules n) = label n :: synthetic_labels (label n) names ∧
    length (synthetic_labels (label n) names) = length (children n) - 2 ∧
    Permutation (production_list sent') (flat_map node_rules (nodes sent)) ∧
    (∀ sent0 p, In p (emitted sent0) → length (rhs p) ≤ 2) ∧
    (∀ frames ps, productions frames sent' = Ok ps → ps = production_list sent').
Proof.
  intros Hcnf Hn Hlen.
  pose proof (chomsky_normal_form_nodes _ _ Hcnf) as Hok.
  rewrite List.Forall_forall in Hok. destruct (Hok n Hn Hlen) as [names Hnames].
  pose proof (child_labels_length _ _ Hnames) as Hl.
  assert (Hrules : node_rules n = cascade_rules (label n) (label n) names).
  { unfold node_rules. apply Nat.ltb_lt in Hlen. by rewrite Hlen, Hnames. }
  exists names. rewrite Hrules. repeat split.
  - exact Hnames.
  - intros p Hp. eapply node_rules_in_productions; eauto. by rewrite Hrules.
  - rewrite cascade_rules_length; lia.
  - eapply Forall_impl; [apply cascade_rules_shape|]. cbn beta.
    intros p (_ & H2 & H3). split; [apply H3; lia | exact H2].
  - apply cascade_rules_lhs.
  - rewrite synthetic_labels_length. lia.
  - by apply productions_chomsky_normal_form.
  - intros sent0 p Hp. apply emitted_node_rules in Hp as (m & _ & Hp).
    by apply node_rules_shape in Hp as [? _].
  - intros frames ps Hps. by apply productions_ok in Hps as [_ ->].
Qed.

(** C10, as the code has it. The guard looks at the root label only: a
    sentence whose root is not [CODE], which has a node labelled [CODE]
    below the root and on which the [try] body does not raise (the
    normalisation returns and [productions] returns), goes through the
    loop like any other sentence; the rules of that node, the first of
    which has [CODE] on the left, are among the emitted productions and
    their texts are in the output sets. *)
Theorem inner_code_node_is_processed (sents : list Tree) (sent sent' n : Tree)
    (ps : list Production) :
  label sent ≠ "CODE" →
  In n (internal_nodes sent) →
  label n = "CODE" →
  chomsky_normal_form sent = Ok sent' →
  productions recursion_budget sent' = Ok ps →
  In sent sents →
  emitted sent = ps ∧
  (∃ p, In p (node_rules n) ∧ lhs p = "CODE") ∧
  (∀ p, In p (node_rules n) →
        In p (emitted sent) ∧
        (unicode_repr p ∈ terminal (extract sents) ∨
         unicode_repr p ∈ binary (extract sents))).
Proof.
  intros Hroot Hn Hlabel Hcnf Hps Hsent.
  apply internal_nodes_nodes in Hn.
  destruct (emitted_ok _ _ _ Hroot Hcnf Hps) as [Hem Hlist].
  split; [exact Hem|]. split.
  - unfold node_rules. destruct (Nat.ltb 2 (length (children n))) eqn:Hlen.
    + apply Nat.ltb_lt in Hlen.
      pose proof (chomsky_normal_form_nodes _ _ Hcnf) as Hok.
      rewrite List.Forall_forall in Hok.
      destruct (Hok n Hn Hlen) as [names ->].
      destruct (cascade_rules_head (label n) (label n) names) as (r & qs & ->).
      eexists. split; [by left | exact Hlabel].
    + eexists. split; [by left | exact Hlabel].
  - intros p Hp.
    assert (Hin : In p (emitted sent)).
    { rewrite Hem, Hlist. eapply node_rules_in_productions; eauto. }
    split; [exact Hin|].
    destruct (is_lexical p) eqn:Hk.
    + left. apply elem_of_terminal_extract. eauto 6.
    + right. apply elem_of_binary_extract. eauto 6.
Qed.

(** ** Further properties of the library calls and of the loops *)

(** *** When normalisation raises *)

Lemma child_labels_cases (cs : list (Child Tree)) :
  (∃ names, child_labels cs = Ok names ∧ ∀ tok, ¬ In (Leaf tok) cs) ∨
  (child_labels cs = Raise AttributeError ∧ ∃ tok, In (Leaf tok) cs).
Proof.
  induction cs as [|[tok|t] cs IH]; simpl.
  - left. exists []. split; [reflexivity | intros tok []].
  - right. split; [reflexivity|]. exists tok. by left.
  - destruct IH as [(names & -> & Hno)|[-> [tok Htok]]].
    + left. eexists. split; [reflexivity|].
      intros tok [H|H]; [discriminate | by eapply Hno].
    + right. split; [reflexivity|]. exists tok. by right.
Qed.

Lemma chomsky_normal_form_raise_inv (t : Tree) (e : exn) :
  chomsky_normal_form t = Raise e →
  ∃ n, In n (nodes t) ∧ wide_with_token n.
Proof.
  revert e. induction t as [l cs IH] using Tree_nested_ind. intros e.
  rewrite chomsky_normal_form_unfold, nodes_node.
  assert (Hkid : ∀ e', sequence (map cnf_child cs) = Raise e' →
                       ∃ n, In n (child_nodes cs) ∧ wide_with_token n).
  { clear e. induction cs as [|c cs IHcs]; intros e' Hseq; [discriminate|].
    apply Forall_cons_1 in IH as [IHc IH].
    rewrite child_nodes_cons. cbn [map sequence] in Hseq.
    destruct c as [tok|u]; cbn [cnf_child app] in *.
    - destruct (sequence (map cnf_child cs)) as [xs|e1] eqn:Hs;
        [discriminate|].
      destruct (IHcs IH e1 eq_refl) as (n & Hn & Hw). eauto.
    - destruct (chomsky_normal_form u) as [u'|e1] eqn:Hu.
      + destruct (sequence (map cnf_child cs)) as [xs|e2] eqn:Hs;
          [discriminate|].
        destruct (IHcs IH e2 eq_refl) as (n & Hn & Hw).
        exists n. split; [apply in_or_app; by right | exact Hw].
      + destruct (IHc e1 eq_refl) as (n & Hn & Hw).
        exists n. split; [apply in_or_app; by left | exact Hw]. }
  destruct (sequence (map cnf_child cs)) as [cs'|e'] eqn:Hseq.
  - destruct (Nat.ltb 2 (length cs)) eqn:Hlen; [|discriminate].
    apply Nat.ltb_lt in Hlen.
    destruct (child_labels_cases cs) as [(names & -> & _)|[_ Htok]];
      [discriminate|].
    intros _. exists (Node l cs). split; [by left|]. by split.
  - intros _. destruct (Hkid e' eq_refl) as (n & Hn & Hw).
    exists n. split; [by right | exact Hw].
Qed.

Lemma wide_with_token_raises (t n : Tree) :
  In n (nodes t) → wide_with_token n →
  ∃ e, chomsky_normal_form t = Raise e.
Proof.
  intros Hn [Hlen [tok Htok]].
  destruct (chomsky_normal_form t) as [t'|e] eqn:Hcnf; [|by exists e].
  pose proof (chomsky_normal_form_nodes _ _ Hcnf) as Hok.
  rewrite List.Forall_forall in Hok. destruct (Hok n Hn Hlen) as [names Hnames].
  destruct (child_labels_cases (children n)) as [(_ & _ & Hno)|[Hr _]].
  - by destruct (Hno tok).
  - congruence.
Qed.

(** *** Normalisation keeps the tokens *)

Lemma leaves_node (l : string) (cs : list (Child Tree)) :
  leaves (Node l cs) = child_leaves cs.
Proof. reflexivity. Qed.

Lemma child_leaves_cons (c : Child Tree) (cs : list (Child Tree)) :
  child_leaves (c :: cs) =
  match c with Leaf tok => [tok] | Sub t => leaves t end ++ child_leaves cs.
Proof. reflexivity. Qed.

Lemma leaves_factor_right (l cur : string) (names : list string)
    (cs : list (Child Tree)) :
  leaves (Node cur (factor_right l names cs)) = child_leaves cs.
Proof.
  revert cur names. induction cs as [|c cs IH]; intros cur names; [reflexivity|].
  destruct cs as [|d [|e cs]]; try reflexivity.
  destruct names as [|n names]; [reflexivity|].
  change (factor_right l (n :: names) (c :: d :: e :: cs))
    with [c; Sub (Node (new_head l names)
                       (factor_right l names (d :: e :: cs)))].
  rewrite leaves_node, !child_leaves_cons, IH.
  change (child_leaves []) with (@nil string). by rewrite app_nil_r.
Qed.

Lemma child_cnf_leaves (cs cs' : list (Child Tree)) :
  Forall2 child_cnf cs cs' →
  Forall (λ c, match c with
               | Leaf _ => True
               | Sub t => ∀ t', chomsky_normal_form t = Ok t' → leaves t' = leaves t
               end) cs →
  child_leaves cs' = child_leaves cs.
Proof.
  induction 1 as [|c c' cs cs' Hc _ IHcs]; intros IH; [reflexivity|].
  apply Forall_cons_1 in IH as [IHc IH].
  rewrite !child_leaves_cons, (IHcs IH). f_equal.
  destruct Hc as [tok|u u' Hu]; [reflexivity | by apply IHc].
Qed.

Lemma chomsky_normal_form_leaves (t t' : Tree) :
  chomsky_normal_form t = Ok t' → leaves t' = leaves t.
Proof.
  revert t'. induction t as [l cs IH] using Tree_nested_ind. intros t' H.
  apply chomsky_normal_form_inv in H
    as (cs' & Hcs & [[_ ->]|(_ & names & _ & ->)]).
  - rewrite !leaves_node. by apply child_cnf_leaves.
  - rewrite leaves_factor_right, leaves_node. by apply child_cnf_leaves.
Qed.

(** *** Normal forms *)

Lemma narrow_factor_right (l cur : string) (names : list string)
    (cs : list (Child Tree)) :
  length names = length cs →
  Forall (λ n, length (children n) ≤ 2) (child_nodes cs) →
  Forall (λ n, length (children n) ≤ 2)
         (nodes (Node cur (factor_right l names cs))).
Proof.
  revert cur names. induction cs as [|c cs IH]; intros cur names Hlen Hkids.
  - rewrite nodes_node. constructor; [simpl; lia | exact Hkids].
  - destruct names as [|n names]; [discriminate|].
    destruct cs as [|d [|e cs]].
    + rewrite nodes_node. constructor; [simpl; lia | exact Hkids].
    + rewrite nodes_node. constructor; [simpl; lia | exact Hkids].
    + change (factor_right l (n :: names) (c :: d :: e :: cs))
        with [c; Sub (Node (new_head l names)
                           (factor_right l names (d :: e :: cs)))].
      rewrite child_nodes_cons in Hkids. apply Forall_app in Hkids as [Hc Hkids].
      rewrite nodes_node. constructor; [simpl; lia|].
      rewrite !child_nodes_cons. apply Forall_app. split; [exact Hc|].
      apply Forall_app. split; [|constructor].
      apply IH; [by injection Hlen | exact Hkids].
Qed.

Lemma chomsky_normal_form_narrow (t t' : Tree) :
  chomsky_normal_form t = Ok t' → narrow t'.
Proof.
  unfold narrow. revert t'. induction t as [l cs IH] using Tree_nested_ind.
  intros t' H.
  apply chomsky_normal_form_inv in H as (cs' & Hcs & Hshape).
  assert (Hkids : Forall (λ n, length (children n) ≤ 2) (child_nodes cs')).
  { clear Hshape. induction Hcs as [|c c' cs cs' Hc _ IHcs]; [constructor|].
    apply Forall_cons_1 in IH as [IHc IH].
    rewrite child_nodes_cons. apply Forall_app. split; [|by apply IHcs].
    destruct Hc as [tok|u u' Hu]; [constructor | by apply IHc]. }
  destruct Hshape as [[Hlen ->]|(Hlen & names & Hnames & ->)].
  - rewrite nodes_node. constructor; [|exact Hkids].
    cbn [children]. by rewrite <- (Forall2_length _ _ _ Hcs).
  - apply narrow_factor_right; [|exact Hkids].
    rewrite (child_labels_length _ _ Hnames). by apply Forall2_length in Hcs.
Qed.

Lemma narrow_fixed (t : Tree) : narrow t → chomsky_normal_form t = Ok t.
Proof.
  unfold narrow. induction t as [l cs IH] using Tree_nested_ind. intros H.
  rewrite nodes_node in H. apply Forall_cons_1 in H as [Hroot Hkids].
  cbn [children] in Hroot.
  assert (Hseq : sequence (map cnf_child cs) = Ok cs).
  { clear Hroot. induction cs as [|c cs IHcs]; [reflexivity|].
    apply Forall_cons_1 in IH as [IHc IH].
    rewrite child_nodes_cons in Hkids. apply Forall_app in Hkids as [Hc Hkids].
    simpl. rewrite (IHcs IH Hkids).
    destruct c as [tok|u]; simpl; [reflexivity|]. by rewrite (IHc Hc). }
  rewrite chomsky_normal_form_unfold, Hseq.
  apply Nat.ltb_ge in Hroot. by rewrite Hroot.
Qed.

(** *** Productions and nodes *)

Lemma productions_nodes (t : Tree) :
  production_list t = map node_production (nodes t).
Proof.
  induction t as [l cs IH] using Tree_nested_ind.
  rewrite productions_node, nodes_node. cbn [map]. f_equal.
  induction cs as [|c cs IHcs]; [reflexivity|].
  apply Forall_cons_1 in IH as [IHc IH].
  rewrite child_productions_cons, child_nodes_cons, map_app, (IHcs IH).
  f_equal. destruct c as [tok|u]; [reflexivity | exact IHc].
Qed.

Lemma node_production_nonlexical (n : Tree) (names : list string) :
  child_labels (children n) = Ok names → is_lexical (node_production n) = false.
Proof.
  intros H. unfold is_lexical, is_nonlexical, node_production. cbn [rhs].
  rewrite (child_labels_names _ _ H).
  assert (Hnt : forallb is_nonterminal (map Nonterminal names) = true).
  { clear. induction names; simpl; auto. }
  by rewrite Hnt.
Qed.

(** Among the rules of a node of a tree that normalises, the lexical
    one, if any, is the production of the node itself. *)
Lemma lexical_node_rule (n : Tree) (p : Production) :
  (2 < length (children n) → ∃ names, child_labels (children n) = Ok names) →
  is_lexical p = true →
  In p (node_rules n) ↔ p = node_production n.
Proof.
  intros Hok Hlex. unfold node_rules.
  destruct (Nat.ltb 2 (length (children n))) eqn:Hlen.
  - apply Nat.ltb_lt in Hlen. destruct (Hok Hlen) as [names Hnames].
    rewrite Hnames. split.
    + intros Hp.
      pose proof (cascade_rules_shape (label n) (label n) names) as Hsh.
      rewrite List.Forall_forall in Hsh. destruct (Hsh p Hp) as (_ & Hnl & _).
      unfold is_lexical in Hlex. rewrite Hnl in Hlex. discriminate.
    + intros ->. rewrite (node_production_nonlexical _ _ Hnames) in Hlex.
      discriminate.
  - simpl. unfold node_production. split; [by intros [<-|[]] | intros ->; by left].
Qed.

Lemma lexical_productions_kept (t t' : Tree) (p : Production) :
  chomsky_normal_form t = Ok t' → is_lexical p = true →
  In p (production_list t') ↔ In p (production_list t).
Proof.
  intros Hcnf Hlex.
  pose proof (chomsky_normal_form_nodes _ _ Hcnf) as Hok.
  rewrite List.Forall_forall in Hok.
  rewrite (productions_nodes t), in_map_iff. split.
  - intros Hp.
    apply (Permutation_in _ (productions_chomsky_normal_form _ _ Hcnf)) in Hp.
    apply in_flat_map in Hp as (n & Hn & Hp).
    apply (lexical_node_rule n p (Hok n Hn) Hlex) in Hp. eauto.
  - intros (n & <- & Hn).
    apply (Permutation_in _
             (Permutation_sym (productions_chomsky_normal_form _ _ Hcnf))).
    apply in_flat_map. exists n. split; [exact Hn|].
    by apply (lexical_node_rule n _ (Hok n Hn) Hlex).
Qed.

Lemma node_rules_lhs (n : Tree) :
  (2 < length (children n) → ∃ names, child_labels (children n) = Ok names) →
  map lhs (node_rules n) = node_lhs n.
Proof.
  intros Hok. unfold node_rules, node_lhs.
  destruct (Nat.ltb 2 (length (children n))) eqn:Hlen; [|reflexivity].
  apply Nat.ltb_lt in Hlen. destruct (Hok Hlen) as [names ->].
  apply cascade_rules_lhs.
Qed.

Lemma map_lhs_node_rules (ns : list Tree) :
  Forall (λ n, 2 < length (children n) →
               ∃ names, child_labels (children n) = Ok names) ns →
  map lhs (flat_map node_rules ns) = flat_map node_lhs ns.
Proof.
  induction 1 as [|n ns Hn _ IH]; [reflexivity|].
  cbn [flat_map]. by rewrite map_app, IH, (node_rules_lhs n Hn).
Qed.

(** X1. The [try] body raises on a sentence exactly in two cases: some
    node of the tree has more than two children, one of them a token
    (the normalisation raises), or the normalisation returns a tree
    with more levels of nodes than [productions] may nest calls
    ([productions] raises). A sentence whose root is not [CODE] gives
    the loop no production exactly when the [try] body raises. *)
Theorem try_raises_iff (sent : Tree) :
  (raises sent ↔
   (∃ n, In n (nodes sent) ∧ wide_with_token n) ∨
   (∃ sent', chomsky_normal_form sent = Ok sent' ∧
             recursion_budget < height sent')) ∧
  (label sent ≠ "CODE" → (emitted sent = [] ↔ raises sent)).
Proof.
  split.
  - rewrite raises_inv. split.
    + intros [[e H]|(sent' & e & H & Hps)].
      * left. by eapply chomsky_normal_form_raise_inv.
      * right. exists sent'. split; [exact H|].
        by apply productions_raise in Hps as [? _].
    + intros [(n & Hn & Hw)|(sent' & H & Hh)].
      * left. by eapply wide_with_token_raises.
      * right. exists sent', RuntimeError. split; [exact H|].
        by apply productions_raise.
  - intros Hroot. split; [|apply raises_emitted].
    intros Hnil. apply raises_inv.
    destruct (chomsky_normal_form sent) as [sent'|e] eqn:Hcnf; [|eauto].
    destruct (productions recursion_budget sent') as [ps|e] eqn:Hps; [|eauto 6].
    destruct (emitted_ok _ _ _ Hroot Hcnf Hps) as [Hem ->].
    rewrite Hem in Hnil. destruct sent'. discriminate.
Qed.

(** X2. A successful normalisation keeps the tokens of the sentence, in
    their order, and the label of the root. *)
Theorem normalisation_keeps_tokens (t t' : Tree) :
  chomsky_normal_form t = Ok t' →
  leaves t' = leaves t ∧ label t' = label t.
Proof.
  intros H. split;
    [by apply chomsky_normal_form_leaves | by apply chomsky_normal_form_label].
Qed.

(** X3. The result of a successful normalisation has at most two
    children at every node, and normalising it again succeeds and
    changes nothing. *)
Theorem normal_form_is_fixed (t t' : Tree) :
  chomsky_normal_form t = Ok t' →
  narrow t' ∧ chomsky_normal_form t' = Ok t'.
Proof.
  intros H. pose proof (chomsky_normal_form_narrow _ _ H) as Hn.
  split; [exact Hn | by apply narrow_fixed].
Qed.

(** X4. A tree with at most two children at every node is left as it is
    by the normalisation, whatever the mix of tokens and subtrees under
    its nodes. The [try] body raises on it only when the tree has more
    levels of nodes than [productions] may nest calls; otherwise,
    unless its root is [CODE], the loop sees exactly the productions of
    the tree as it was read. *)
Theorem narrow_tree_is_unchanged (sent : Tree) :
  narrow sent →
  chomsky_normal_form sent = Ok sent ∧
  (raises sent ↔ recursion_budget < height sent) ∧
  (label sent ≠ "CODE" → height sent ≤ recursion_budget →
   emitted sent = production_list sent).
Proof.
  intros H. pose proof (narrow_fixed _ H) as Hcnf.
  split; [exact Hcnf|]. split.
  - rewrite raises_inv. split.
    + intros [[e He]|(sent' & e & He & Hps)]; [congruence|].
      rewrite Hcnf in He. injection He as <-.
      by apply productions_raise in Hps as [? _].
    + intros Hh. right. exists sent, RuntimeError. split; [exact Hcnf|].
      by apply productions_raise.
  - intros Hroot Hh. by apply emitted_height.
Qed.

(** X5. Normalisation does not touch the lexical productions: for a
    sentence on which the [try] body does not raise, the strings it
    adds to [terminal] are those of the lexical productions of the tree
    as it was read. *)
Theorem terminal_ignores_normalisation (sent sent' : Tree)
    (ps : list Production) :
  label sent ≠ "CODE" →
  chomsky_normal_form sent = Ok sent' →
  productions recursion_budget sent' = Ok ps →
  terminal (contribution sent) = terminal (classified (production_list sent)).
Proof.
  intros Hroot Hcnf Hps.
  destruct (emitted_ok _ _ _ Hroot Hcnf Hps) as [Hem ->].
  rewrite contribution_spec, Hem.
  apply set_eq. intros s. rewrite !elem_of_terminal_classified.
  split; intros (p & Hp & Hlex & ->); exists p; repeat split; try assumption.
  - by apply (lexical_productions_kept _ _ p Hcnf Hlex).
  - by apply (lexical_productions_kept _ _ p Hcnf Hlex).
Qed.

(** X6. The loops only add: whatever the reader and whatever the sets
    hold at the start, every string present before is present after,
    and the sets of a corpus contain those of any of its prefixes. *)
Theorem sets_only_grow (reader : CorpusReader) (st : Store) :
  terminal st ⊆ terminal (snd (main_loop reader st)) ∧
  binary st ⊆ binary (snd (main_loop reader st)) ∧
  (∀ sents more,
      terminal (extract sents) ⊆ terminal (extract (sents ++ more)) ∧
      binary (extract sents) ⊆ binary (extract (sents ++ more))).
Proof.
  rewrite main_loop_sentences, for_in_per_sentence. cbn [snd store_union terminal binary].
  split; [apply union_subseteq_l|]. split; [apply union_subseteq_l|].
  intros sents more. rewrite !extract_spec, map_app, store_unions_app.
  cbn [store_union terminal binary]. split; apply union_subseteq_l.
Qed.

(** X7. After a successful normalisation the left-hand sides of the
    productions are, up to order, the labels of the nodes of the input
    and the synthetic labels of the nodes with more than two children:
    every label of the input is still a left-hand side and no other new
    label appears. The productions are those of [production_list], the
    list [productions] returns whenever it returns. *)
Theorem left_hand_sides_after_normalisation (t t' : Tree) :
  chomsky_normal_form t = Ok t' →
  Permutation (map lhs (production_list t')) (flat_map node_lhs (nodes t)) ∧
  (∀ n, In n (nodes t) → In (label n) (map lhs (production_list t'))) ∧
  (∀ frames ps, productions frames t' = Ok ps → ps = production_list t').
Proof.
  intros H.
  assert (Hperm : Permutation (map lhs (production_list t'))
                              (flat_map node_lhs (nodes t))).
  { rewrite <- (map_lhs_node_rules _ (chomsky_normal_form_nodes _ _ H)).
    apply Permutation_map. by apply productions_chomsky_normal_form. }
  split; [exact Hperm|]. split.
  - intros n Hn. apply (Permutation_in _ (Permutation_sym Hperm)).
    apply in_flat_map. exists n. split; [exact Hn | by left].
  - intros frames ps Hps. by apply productions_ok in Hps as [_ ->].
Qed.

(** *** Strings *)

Lemma forall_bool_spec (f : bool → bool) :
  forall_bool f = true → ∀ b, f b = true.
Proof. unfold forall_bool. intros [H1 H2]%andb_true_iff []; assumption. Qed.

Lemma forall_ascii_spec (P : ascii → bool) :
  forall_ascii P = true → ∀ c, P c = true.
Proof.
  unfold forall_ascii. intros H [b0 b1 b2 b3 b4 b5 b6 b7].
  apply forall_bool_spec with (b := b0) in H.
  apply forall_bool_spec with (b := b1) in H.
  apply forall_bool_spec with (b := b2) in H.
  apply forall_bool_spec with (b := b3) in H.
  apply forall_bool_spec with (b := b4) in H.
  apply forall_bool_spec with (b := b5) in H.
  apply forall_bool_spec with (b := b6) in H.
  apply forall_bool_spec with (b := b7) in H.
  exact H.
Qed.

Lemma string_app_inv_head (a r1 r2 : string) :
  (a ++ r1 = a ++ r2)%string → r1 = r2.
Proof. induction a as [|x a IH]; simpl; [trivial|]. intros H. injection H as H. auto. Qed.

Lemma string_length_app (a b : string) :
  String.length (a ++ b) = String.length a + String.length b.
Proof. induction a as [|x a IH]; simpl; [reflexivity | f_equal; exact IH]. Qed.

Lemma string_app_inv_tail (a b t : string) :
  (a ++ t = b ++ t)%string → a = b.
Proof.
  revert b. induction a as [|x a IH]; intros [|y b] H.
  - reflexivity.
  - apply (f_equal String.length) in H.
    change (String.length t = S (String.length (b ++ t))) in H.
    rewrite string_length_app in H. lia.
  - apply (f_equal String.length) in H.
    change (S (String.length (a ++ t)) = String.length t) in H.
    rewrite string_length_app in H. lia.
  - injection H as -> H. f_equal. by apply IH.
Qed.

(** Two strings with a common extension: one starts with the other. *)
Lemma starts_with_common (a b r1 r2 : string) :
  (a ++ r1 = b ++ r2)%string → starts_with a b = true ∨ starts_with b a = true.
Proof.
  revert b. induction a as [|x a IH]; intros [|y b] H; simpl in *; auto.
  injection H as -> H. rewrite Ascii.eqb_refl. simpl. by apply IH.
Qed.

Lemma all_chars_app (P : ascii → bool) (a b : string) :
  all_chars P (a ++ b) = all_chars P a && all_chars P b.
Proof. induction a as [|x a IH]; simpl; [reflexivity|]. by rewrite IH, andb_assoc. Qed.

Lemma all_chars_impl (P Q : ascii → bool) (s : string) :
  (∀ c, P c = true → Q c = true) → all_chars P s = true → all_chars Q s = true.
Proof.
  intros HPQ. induction s as [|x s IH]; simpl; [trivial|].
  intros [H1 H2]%andb_true_iff. by rewrite (HPQ _ H1), (IH H2).
Qed.

Lemma all_chars_join (P : ascii → bool) (sep : string) (xs : list string) :
  all_chars P sep = true → Forall (λ x, all_chars P x = true) xs →
  all_chars P (PyStr.join sep xs) = true.
Proof.
  intros Hsep. induction 1 as [|x xs Hx Hxs IH]; [reflexivity|].
  destruct xs as [|y xs]; [exact Hx|].
  change (PyStr.join sep (x :: y :: xs))
    with (x ++ sep ++ PyStr.join sep (y :: xs))%string.
  by rewrite !all_chars_app, Hx, Hsep, IH.
Qed.

(** *** The text of a token *)

Lemma quote_of_cases (s : string) :
  PyStr.quote_of s = PyStr.squote ∨ PyStr.quote_of s = PyStr.dquote.
Proof. unfold PyStr.quote_of. destruct (_ && _); auto. Qed.

Lemma escape_char_printable (q c : ascii) :
  q = PyStr.squote ∨ q = PyStr.dquote →
  all_chars printable (PyStr.escape_char q c) = true.
Proof.
  intros [-> | ->]; revert c; apply forall_ascii_spec; vm_compute; reflexivity.
Qed.

Lemma escape_printable (q : ascii) (s : string) :
  q = PyStr.squote ∨ q = PyStr.dquote →
  all_chars printable (PyStr.escape q s) = true.
Proof.
  intros Hq. induction s as [|c s IH]; [reflexivity|]. simpl.
  by rewrite all_chars_app, (escape_char_printable q c Hq), IH.
Qed.

Lemma unicode_repr_printable (s : string) :
  all_chars printable (PyStr.unicode_repr s) = true.
Proof.
  unfold PyStr.unicode_repr.
  pose proof (quote_of_cases s) as Hq.
  cbn [all_chars]. rewrite all_chars_app, (escape_printable _ s Hq).
  destruct Hq as [-> | ->]; reflexivity.
Qed.

Lemma escapes_prefix_free_quotes (q : ascii) :
  q = PyStr.squote ∨ q = PyStr.dquote → escapes_prefix_free q = true.
Proof. intros [-> | ->]; vm_compute; reflexivity. Qed.

Lemma escape_char_prefix (q c1 c2 : ascii) :
  q = PyStr.squote ∨ q = PyStr.dquote →
  starts_with (PyStr.escape_char q c1) (PyStr.escape_char q c2) = true →
  c1 = c2.
Proof.
  intros Hq Hpre. pose proof (escapes_prefix_free_quotes q Hq) as H.
  unfold escapes_prefix_free in H.
  apply forall_ascii_spec with (c := c1) in H.
  apply forall_ascii_spec with (c := c2) in H.
  rewrite Hpre in H. simpl in H. by apply Ascii.eqb_eq.
Qed.

Lemma escape_char_nonempty (q c : ascii) :
  q = PyStr.squote ∨ q = PyStr.dquote → PyStr.escape_char q c ≠ EmptyString.
Proof.
  intros Hq.
  assert (Hb : ∀ d, negb (String.eqb (PyStr.escape_char q d) EmptyString) = true).
  { destruct Hq as [-> | ->]; apply forall_ascii_spec; vm_compute; reflexivity. }
  intros H. specialize (Hb c). rewrite H in Hb. discriminate.
Qed.

Lemma escape_inj (q : ascii) (s1 s2 : string) :
  q = PyStr.squote ∨ q = PyStr.dquote →
  PyStr.escape q s1 = PyStr.escape q s2 → s1 = s2.
Proof.
  intros Hq. revert s2. induction s1 as [|c1 s1 IH]; intros [|c2 s2] H.
  - reflexivity.
  - simpl in H. destruct (PyStr.escape_char q c2) as [|x r] eqn:He;
      [by destruct (escape_char_nonempty q c2 Hq) | discriminate].
  - simpl in H. destruct (PyStr.escape_char q c1) as [|x r] eqn:He;
      [by destruct (escape_char_nonempty q c1 Hq) | discriminate].
  - cbn [PyStr.escape] in H.
    assert (Hc : c1 = c2).
    { destruct (starts_with_common _ _ _ _ H) as [Hp|Hp];
        [|symmetry]; by eapply escape_char_prefix. }
    subst c2. apply string_app_inv_head in H. f_equal. by apply IH.
Qed.

Lemma unicode_repr_inj (a b : string) :
  PyStr.unicode_repr a = PyStr.unicode_repr b → a = b.
Proof.
  unfold PyStr.unicode_repr. intros H. injection H as Hq H.
  rewrite <- Hq in H. apply string_app_inv_tail in H.
  by apply (escape_inj _ _ _ (quote_of_cases a)).
Qed.

(** A string without a space, followed by a space: the split is unique. *)
Lemma space_split (l l' x y : string) :
  PyStr.contains " " l = false → PyStr.contains " " l' = false →
  (l ++ String " " x = l' ++ String " " y)%string → l = l' ∧ x = y.
Proof.
  revert l'. induction l as [|c l IH]; intros [|c' l'] Hl Hl' H;
    cbn [PyStr.contains String.append] in *.
  - by injection H as ->.
  - injection H as <- _. rewrite Ascii.eqb_refl in Hl'. discriminate Hl'.
  - injection H as -> _. rewrite Ascii.eqb_refl in Hl. discriminate Hl.
  - injection H as -> H.
    destruct (Ascii.eqb " " c') eqn:Hc; [discriminate Hl|].
    destruct (IH l' Hl Hl' H) as [-> ->]. by split.
Qed.

(** *** The characters of the report *)

Lemma new_head_printable (l : string) (names : list string) :
  all_chars printable l = true →
  Forall (λ x, all_chars printable x = true) names →
  all_chars printable (new_head l names) = true.
Proof.
  intros Hl Hn. unfold new_head.
  rewrite !all_chars_app, Hl.
  apply (Forall_take _ horzMarkov) in Hn.
  rewrite (all_chars_join printable "-" _ eq_refl Hn).
  reflexivity.
Qed.

Lemma production_printable (p : Production) :
  all_chars printable (lhs p) = true →
  Forall (λ x, all_chars printable (symbol_repr x) = true) (rhs p) →
  clean_text p.
Proof.
  intros Hl Hr. unfold clean_text, unicode_repr.
  rewrite !all_chars_app, Hl. cbn [andb].
  replace (all_chars printable " -> ") with true by reflexivity. cbn [andb].
  apply (all_chars_join printable " " _ eq_refl).
  rewrite List.Forall_forall in *. intros s (x & <- & Hx)%in_map_iff. by apply Hr.
Qed.

Lemma cascade_rules_printable (l cur : string) (names : list string) :
  all_chars printable l = true →
  all_chars printable cur = true →
  Forall (λ x, all_chars printable x = true) names →
  Forall clean_text (cascade_rules l cur names).
Proof.
  intros Hl. revert cur. induction names as [|n names IH]; intros cur Hcur Hn.
  - constructor; [|constructor]. by apply production_printable; [|constructor].
  - apply Forall_cons_1 in Hn as [Hn Hnames].
    destruct names as [|n1 [|n2 names]].
    + constructor; [|constructor].
      apply production_printable; [exact Hcur | by repeat constructor].
    + apply Forall_cons_1 in Hnames as [Hn1 _].
      constructor; [|constructor].
      apply production_printable; [exact Hcur | by repeat constructor].
    + change (cascade_rules l cur (n :: n1 :: n2 :: names))
        with (mkProduction cur [Nonterminal n;
                                Nonterminal (new_head l (n1 :: n2 :: names))]
              :: cascade_rules l (new_head l (n1 :: n2 :: names))
                               (n1 :: n2 :: names)).
      pose proof (new_head_printable l _ Hl Hnames) as Hh.
      constructor; [|by apply IH].
      apply production_printable; [exact Hcur | by repeat constructor].
Qed.

Lemma clean_labels_children (t : Tree) :
  clean_labels t →
  Forall (λ n, Forall (λ x, all_chars printable (symbol_repr x) = true)
                      (map child_name (children n))) (nodes t).
Proof.
  unfold clean_labels. induction t as [l cs IH] using Tree_nested_ind.
  rewrite nodes_node. intros [_ Hkids]%Forall_cons_1. cbn [children].
  constructor.
  - clear IH. induction cs as [|c cs IHcs]; [constructor|].
    rewrite child_nodes_cons in Hkids. apply Forall_app in Hkids as [Hc Hkids].
    cbn [map]. constructor; [|by apply IHcs].
    destruct c as [tok|[lu csu]]; [apply unicode_repr_printable|].
    rewrite nodes_node in Hc. by apply Forall_cons_1 in Hc as [Hc _].
  - induction cs as [|c cs IHcs]; [constructor|].
    apply Forall_cons_1 in IH as [IHc IH].
    rewrite child_nodes_cons in Hkids. apply Forall_app in Hkids as [Hc Hkids].
    rewrite child_nodes_cons. apply Forall_app. split; [|by apply IHcs].
    destruct c as [tok|u]; [constructor | by apply IHc].
Qed.

Lemma node_rules_printable (n : Tree) (p : Production) :
  all_chars printable (label n) = true →
  Forall (λ x, all_chars printable (symbol_repr x) = true)
         (map child_name (children n)) →
  In p (node_rules n) → clean_text p.
Proof.
  intros Hl Hc. unfold node_rules.
  destruct (Nat.ltb 2 (length (children n))).
  - destruct (child_labels (children n)) as [names|e] eqn:Hnames; [|intros []].
    rewrite (child_labels_names _ _ Hnames) in Hc.
    assert (Hn : Forall (λ x, all_chars printable x = true) names).
    { clear -Hc. induction names as [|x names IH]; [constructor|].
      cbn [map] in Hc. apply Forall_cons_1 in Hc as [Hx Hc].
      constructor; [exact Hx | by apply IH]. }
    pose proof (cascade_rules_printable _ _ _ Hl Hl Hn) as Hall.
    rewrite List.Forall_forall in Hall. apply Hall.
  - intros [<-|[]]. by apply production_printable.
Qed.

Lemma emitted_printable (sent : Tree) (p : Production) :
  clean_labels sent → In p (emitted sent) → clean_text p.
Proof.
  intros Hclean Hp. apply emitted_node_rules in Hp as (n & Hn & Hp).
  pose proof (clean_labels_children _ Hclean) as Hkids.
  unfold clean_labels in Hclean. rewrite List.Forall_forall in Hclean, Hkids.
  eapply node_rules_printable; eauto.
Qed.

Lemma report_printable (ts bs : list string) :
  Forall (λ x, all_chars printable x = true) ts →
  Forall (λ x, all_chars printable x = true) bs →
  all_chars printable_or_newline (report ts bs) = true.
Proof.
  intros Hts Hbs.
  assert (Hweak : ∀ c, printable c = true → printable_or_newline c = true).
  { intros c Hc. unfold printable_or_newline. by rewrite Hc. }
  assert (Hj : ∀ xs, Forall (λ x, all_chars printable x = true) xs →
                     all_chars printable_or_newline (PyStr.join newline xs) = true).
  { intros xs Hxs. apply all_chars_join; [reflexivity|].
    eapply Forall_impl; [exact Hxs|]. intros x. apply all_chars_impl, Hweak. }
  unfold report, print. rewrite !all_chars_app, (Hj ts Hts), (Hj bs Hbs).
  reflexivity.
Qed.

Lemma nothing_emitted_extract (sents : list Tree) :
  (∀ sent, In sent sents → emitted sent = []) → extract sents = empty_store.
Proof.
  intros H. rewrite extract_spec.
  induction sents as [|s sents IH]; [reflexivity|]. cbn [map store_unions foldr].
  rewrite contribution_spec, (H s (or_introl eq_refl)).
  change (classified []) with empty_store. rewrite store_union_empty_l.
  apply IH. intros sent Hsent. apply H. by right.
Qed.

(** X8. When no sentence of the corpus gives the loop a production (the
    corpus is empty, or every sentence has the root [CODE] or raises),
    the report is exactly the two headers, each followed by one empty
    line: [TERMINALS], an empty line, the separating empty line,
    [BINARIES], an empty line. *)
Theorem report_of_nothing (reader : CorpusReader) (out : string) :
  (∀ sent, In sent (sentences reader) → emitted sent = []) →
  (prints (snd (run reader)) out ↔
   out = ("TERMINALS" ++ newline ++ newline ++ newline ++
          "BINARIES" ++ newline ++ newline)%string).
Proof.
  intros H. rewrite run_extract. cbn [snd].
  rewrite (nothing_emitted_extract _ H). unfold prints.
  cbn [empty_store terminal binary]. rewrite elements_empty. split.
  - intros (ts & bs & Hts & Hbs & ->).
    apply Permutation_sym, Permutation_nil in Hts as ->.
    apply Permutation_sym, Permutation_nil in Hbs as ->.
    reflexivity.
  - intros ->. exists [], []. by repeat split.
Qed.

(** X9. When every label of every sentence is printable ASCII, every
    character of the report is printable ASCII or a newline, whatever
    the tokens are and whatever the order in which the sets are
    iterated: a token reaches the report only through [repr], which
    escapes every other character. *)
Theorem report_is_ascii (reader : CorpusReader) (out : string) :
  (∀ sent, In sent (sentences reader) → clean_labels sent) →
  prints (snd (run reader)) out →
  all_chars printable_or_newline out = true.
Proof.
  intros Hclean (ts & bs & Hts & Hbs & ->).
  rewrite run_extract in Hts, Hbs. cbn [snd] in Hts, Hbs.
  apply report_printable; rewrite List.Forall_forall; intros s Hs.
  - apply (Permutation_in _ Hts) in Hs.
    apply list_elem_of_In, elem_of_elements, elem_of_terminal_extract in Hs
      as (sent & p & Hsent & Hp & _ & ->).
    by apply (emitted_printable sent p (Hclean sent Hsent)).
  - apply (Permutation_in _ Hbs) in Hs.
    apply list_elem_of_In, elem_of_elements, elem_of_binary_extract in Hs
      as (sent & p & Hsent & Hp & _ & ->).
    by apply (emitted_printable sent p (Hclean sent Hsent)).
Qed.

(** X10. The text of a lexical production determines the production
    when the tag has no space: two productions with one token on the
    right and space-free left-hand sides that print alike have the same
    left-hand side and the same token, so the set [terminal] never
    merges two different words of a tag. *)
Theorem lexical_text_determines_production (l l' a b : string) :
  PyStr.contains " " l = false →
  PyStr.contains " " l' = false →
  unicode_repr (mkProduction l [Terminal a]) =
  unicode_repr (mkProduction l' [Terminal b]) →
  l = l' ∧ a = b.
Proof.
  intros Hl Hl'. unfold unicode_repr. cbn [lhs rhs map symbol_repr PyStr.join].
  intros H.
  assert (H' : (l ++ String " " ("-> " ++ PyStr.unicode_repr a) =
                l' ++ String " " ("-> " ++ PyStr.unicode_repr b))%string).
  { revert H. generalize (PyStr.unicode_repr a), (PyStr.unicode_repr b).
    intros x y H.
    assert (Hmove : ∀ u v, ((u ++ " -> ") ++ v = u ++ String " " ("-> " ++ v))%string).
    { intros u v. induction u as [|c u IH]; [reflexivity|].
      change (String c ((u ++ " -> ") ++ v) =
              String c (u ++ String " " ("-> " ++ v)))%string.
      f_equal. exact IH. }
    by rewrite <- !Hmove. }
  apply (space_split _ _ _ _ Hl Hl') in H' as [-> H'].
  split; [reflexivity|].
  apply string_app_inv_head in H'. by apply unicode_repr_inj.
Qed.


End Script.

(** ** Closed instances

    Each instance fixes the budget of [productions]: [sample_budget] for
    the sentences that are processed, and [default_recursion_limit],
    more than the interpreter leaves, where [productions] is to raise on
    a chain of 1200 nodes. *)

Local Open Scope nat_scope.

Lemma sample_budget_covers_three : 3 ≤ sample_budget.
Proof. apply Nat.leb_le. reflexivity. Defined.

Lemma narrow_unary_chain (n : nat) : narrow (unary_chain n).
Proof.
  unfold narrow. induction n as [|n IH].
  - repeat constructor.
  - change (nodes (unary_chain (S n)))
      with (unary_chain (S n) :: (nodes (unary_chain n) ++ [])).
    rewrite app_nil_r. constructor; [simpl; lia | exact IH].
Defined.

Lemma unary_chain_too_deep :
  default_recursion_limit < height (unary_chain 1200).
Proof. apply Nat.ltb_lt. vm_compute. reflexivity. Defined.

Lemma unary_chain_raises :
  fst (try_body default_recursion_limit (unary_chain 1200) empty_store)
  = Raise RuntimeError.
Proof.
  rewrite (try_body_raise_productions default_recursion_limit
             (unary_chain 1200) (unary_chain 1200) RuntimeError);
    [reflexivity | exact (narrow_fixed _ (narrow_unary_chain 1200)) |].
  apply productions_raise. split; [exact unary_chain_too_deep | reflexivity].
Defined.

Lemma failed_sentence_adds_nothing_witness :
  (raises sample_budget three_tokens ∧
   extract sample_budget [the_cat_sat; three_tokens; the_big_cat_sat] =
   extract sample_budget [the_cat_sat; the_big_cat_sat]) ∧
  (raises default_recursion_limit (unary_chain 1200) ∧
   extract default_recursion_limit [the_cat_sat; unary_chain 1200] =
   extract default_recursion_limit [the_cat_sat]).
Proof.
  assert (H : raises sample_budget three_tokens)
    by (exists AttributeError, empty_store; reflexivity).
  assert (H2 : raises default_recursion_limit (unary_chain 1200))
    by (exists RuntimeError, empty_store; exact unary_chain_raises).
  split; (split; [assumption|]).
  - exact (proj1 (proj2 (proj2 (proj2
             (failed_sentence_adds_nothing sample_budget three_tokens H))))
             [the_cat_sat] [the_big_cat_sat]).
  - exact (proj1 (proj2 (proj2 (proj2
             (failed_sentence_adds_nothing default_recursion_limit
                (unary_chain 1200) H2))))
             [the_cat_sat] []).
Defined.

Lemma code_sentence_skipped_witness :
  contribution sample_budget code_block = empty_store ∧
  extract sample_budget [the_cat_sat; code_block] =
  extract sample_budget [the_cat_sat].
Proof.
  pose proof (code_sentence_skipped sample_budget code_block eq_refl)
    as (_ & H1 & H2 & _).
  split; [exact H1 | exact (H2 [the_cat_sat] [])].
Defined.

Lemma sentence_failure_is_caught_witness :
  (per_sentence sample_budget three_tokens empty_store = (Ok tt, empty_store) ∧
   for_in [three_tokens; the_cat_sat] (per_sentence sample_budget) empty_store =
   for_in [the_cat_sat] (per_sentence sample_budget) empty_store) ∧
  per_sentence default_recursion_limit (unary_chain 1200) empty_store
  = (Ok tt, empty_store).
Proof.
  pose proof (sentence_failure_is_caught sample_budget three_tokens
                AttributeError empty_store eq_refl) as (H1 & H2 & _).
  pose proof (sentence_failure_is_caught default_recursion_limit
                (unary_chain 1200) RuntimeError empty_store
                unary_chain_raises) as (H3 & _).
  split; [split; [exact H1 | exact (H2 [the_cat_sat])] | exact H3].
Defined.

Lemma duplicate_insertion_is_invisible_witness :
  count_occ string_dec
    (terminal_lines
       (snd (run sample_budget (one_file [the_cat_sat; the_cat_sat]))))
    (unicode_repr (mkProduction "NN" [Terminal "cat"])) = 1.
Proof.
  refine (proj1 (proj1 (proj2 (proj2
    (duplicate_insertion_is_invisible sample_budget
       (one_file [the_cat_sat; the_cat_sat])))) the_cat_sat
       (mkProduction "NN" [Terminal "cat"]) _ _) eq_refl).
  - left. reflexivity.
  - vm_compute. tauto.
Defined.

Lemma sentence_order_is_irrelevant_witness :
  run sample_budget (one_file [the_cat_sat; three_tokens; the_big_cat_sat]) =
  run sample_budget (one_file [the_big_cat_sat; the_cat_sat; three_tokens]).
Proof.
  refine (proj1 (sentence_order_is_irrelevant sample_budget
                   (one_file [the_cat_sat; three_tokens; the_big_cat_sat])
                   (one_file [the_big_cat_sat; the_cat_sat; three_tokens]) _)).
  apply Permutation_sym.
  apply (Permutation_cons_app [the_cat_sat; three_tokens] []).
  apply Permutation_refl.
Defined.

Lemma example_the_cat_sat_witness :
  binary (snd (run sample_budget (one_file [the_cat_sat]))) =
    {[ "S -> NP VP"; "NP -> DT NN"; "VP -> VBZ" ]} ∧
  terminal (snd (run sample_budget (one_file [the_cat_sat]))) =
    {[ "DT -> 'the'"; "NN -> 'cat'"; "VBZ -> 'sat'" ]}.
Proof.
  pose proof (example_the_cat_sat sample_budget sample_budget_covers_three)
    as H.
  cbv zeta in H. destruct H as (_ & _ & _ & _ & _ & Hb & Ht).
  exact (conj Hb Ht).
Defined.

Lemma production_added_to_one_set_witness :
  unicode_repr (mkProduction "NN" [Terminal "cat"])
    ∈ terminal (extract sample_budget [the_cat_sat]) ∨
  unicode_repr (mkProduction "NN" [Terminal "cat"])
    ∈ binary (extract sample_budget [the_cat_sat]).
Proof.
  refine (proj1 (proj2 (proj2 (proj2
    (production_added_to_one_set sample_budget [the_cat_sat] the_cat_sat
       (mkProduction "NN" [Terminal "cat"]) _ _))))).
  - left. reflexivity.
  - vm_compute. tauto.
Defined.

(** C3 fails as stated: in [(S (X the) (X ('the' foo)))] the production
    of the first [X] is lexical and that of the second is not, and both
    print as [X -> 'the'], so this text is in both sets. *)
Lemma quoted_label_text_in_both_sets :
  In (mkProduction "X" [Terminal "the"]) (emitted sample_budget quoted_label) ∧
  chomsky_normal_form quoted_label = Ok quoted_label ∧
  unicode_repr (mkProduction "X" [Terminal "the"])
    ∈ terminal (extract sample_budget [quoted_label]) ∧
  unicode_repr (mkProduction "X" [Terminal "the"])
    ∈ binary (extract sample_budget [quoted_label]).
Proof.
  split; [vm_compute; tauto|]. split; [reflexivity|]. split.
  - apply elem_of_terminal_extract.
    exists quoted_label, (mkProduction "X" [Terminal "the"]).
    repeat split; vm_compute; tauto.
  - apply elem_of_binary_extract.
    exists quoted_label, (mkProduction "X" [Nonterminal "'the'"]).
    repeat split; vm_compute; tauto.
Qed.

Lemma output_production_shapes_witness :
  (is_lexical (mkProduction "NN" [Terminal "cat"]) = true ∧
   ∃ tok, rhs (mkProduction "NN" [Terminal "cat"]) = [Terminal tok]) ∨
  (is_lexical (mkProduction "NN" [Terminal "cat"]) = false ∧
   (length (rhs (mkProduction "NN" [Terminal "cat"])) = 1 ∨
    length (rhs (mkProduction "NN" [Terminal "cat"])) = 2) ∧
   forallb is_nonterminal (rhs (mkProduction "NN" [Terminal "cat"])) = true).
Proof.
  refine (proj2 (proj2 (proj2
    (output_production_shapes sample_budget [the_cat_sat; the_big_cat_sat])))
    the_cat_sat (mkProduction "NN" [Terminal "cat"]) _ eq_refl _).
  - left. reflexivity.
  - vm_compute. tauto.
Defined.

(** C2 fails as stated. In [(NP (DT the) cat)] the token has a sibling:
    the production [NP -> DT 'cat'] is lexical, has two right-hand
    symbols, one of them a non-terminal, and its text, which is in
    [terminal], is not the text of any production over a single token. *)
Lemma sibling_token_breaks_shape :
  In (mkProduction "NP" [Nonterminal "DT"; Terminal "cat"])
     (emitted sample_budget mixed_children) ∧
  is_lexical (mkProduction "NP" [Nonterminal "DT"; Terminal "cat"]) = true ∧
  "NP -> DT 'cat'" ∈ terminal (extract sample_budget [mixed_children]) ∧
  (∀ l tok, unicode_repr (mkProduction l [Terminal tok]) ≠ "NP -> DT 'cat'").
Proof.
  split; [vm_compute; tauto|]. split; [reflexivity|]. split.
  - apply elem_of_terminal_extract.
    exists mixed_children,
      (mkProduction "NP" [Nonterminal "DT"; Terminal "cat"]).
    repeat split; vm_compute; tauto.
  - exact no_single_token_text.
Qed.

Lemma wide_node_becomes_cascade_witness :
  ∃ names,
    node_rules (Node "NP" [pre "DT" "the"; pre "JJ" "big"; pre "NN" "cat"]) =
      cascade_rules "NP" "NP" names ∧
    length (node_rules
              (Node "NP" [pre "DT" "the"; pre "JJ" "big"; pre "NN" "cat"])) = 2 ∧
    length (synthetic_labels "NP" names) = 1.
Proof.
  destruct (wide_node_becomes_cascade sample_budget the_big_cat_sat
      (Node "S" [Sub (Node "NP" [pre "DT" "the";
                                 Sub (Node "NP|<JJ-NN>"
                                        [pre "JJ" "big"; pre "NN" "cat"])]);
                 Sub (Node "VP" [pre "VBZ" "sat"])])
      (Node "NP" [pre "DT" "the"; pre "JJ" "big"; pre "NN" "cat"]))
    as (names & _ & H1 & _ & H2 & _ & _ & H3 & _).
  - reflexivity.
  - simpl. tauto.
  - simpl. lia.
  - exists names. exact (conj H1 (conj H2 H3)).
Defined.

(** C6 fails as stated for a node with more than three children:
    [(S (A a) (B b) (C c) (D d))] normalises, and its root yields three
    productions over non-terminals and two synthetic labels. *)
Lemma four_children_three_rules :
  chomsky_normal_form four_children =
    Ok (Node "S" [pre "A" "a";
                  Sub (Node "S|<B-C-D>"
                         [pre "B" "b";
                          Sub (Node "S|<C-D>" [pre "C" "c"; pre "D" "d"])])]) ∧
  map unicode_repr (node_rules four_children) =
    ["S -> A S|<B-C-D>"; "S|<B-C-D> -> B S|<C-D>"; "S|<C-D> -> C D"] ∧
  map unicode_repr (emitted sample_budget four_children) =
    ["S -> A S|<B-C-D>"; "A -> 'a'"; "S|<B-C-D> -> B S|<C-D>"; "B -> 'b'";
     "S|<C-D> -> C D"; "C -> 'c'"; "D -> 'd'"] ∧
  length (node_rules four_children) = 3 ∧
  synthetic_labels "S" ["A"; "B"; "C"; "D"] = ["S|<B-C-D>"; "S|<C-D>"].
Proof. repeat split. Qed.

Lemma inner_code_node_is_processed_witness :
  ∃ p, In p (node_rules code_block) ∧ lhs p = "CODE".
Proof.
  refine (proj1 (proj2
    (inner_code_node_is_processed sample_budget [inner_code] inner_code
       inner_code code_block _ _ _ _ eq_refl eq_refl _))).
  - discriminate.
  - simpl. tauto.
  - reflexivity.
  - simpl. tauto.
Defined.

(** C10 fails as stated when the sentence does not normalise: in
    [(S (CODE a b c))] the root is not [CODE], the node below it is, and
    nothing is added to either set. *)
Lemma inner_code_tokens_add_nothing :
  label inner_code_tokens ≠ "CODE" ∧
  In (Node "CODE" [Leaf "a"; Leaf "b"; Leaf "c"])
     (internal_nodes inner_code_tokens) ∧
  chomsky_normal_form inner_code_tokens = Raise AttributeError ∧
  extract sample_budget [inner_code_tokens] = empty_store.
Proof.
  split; [discriminate|]. split; [simpl; tauto|]. split; [reflexivity|].
  rewrite extract_spec. simpl. rewrite contribution_spec.
  rewrite (emitted_raise sample_budget inner_code_tokens AttributeError eq_refl).
  reflexivity.
Qed.

Lemma try_raises_iff_witness :
  raises sample_budget three_tokens ∧
  raises default_recursion_limit (unary_chain 1200).
Proof.
  split.
  - refine (proj2 (proj1 (try_raises_iff sample_budget three_tokens)) _).
    left. exists three_tokens. split; [by left|].
    split; [simpl; lia | exists "a"; by left].
  - refine (proj2 (proj1 (try_raises_iff default_recursion_limit
                            (unary_chain 1200))) _).
    right. exists (unary_chain 1200).
    split; [exact (narrow_fixed _ (narrow_unary_chain 1200))
           | exact unary_chain_too_deep].
Defined.

Lemma normalisation_keeps_tokens_witness :
  leaves (Node "S" [Sub (Node "NP" [pre "DT" "the";
                                   Sub (Node "NP|<JJ-NN>"
                                          [pre "JJ" "big"; pre "NN" "cat"])]);
                    Sub (Node "VP" [pre "VBZ" "sat"])])
  = ["the"; "big"; "cat"; "sat"].
Proof.
  exact (proj1 (normalisation_keeps_tokens the_big_cat_sat _ eq_refl)).
Defined.

Lemma normal_form_is_fixed_witness :
  chomsky_normal_form
    (Node "S" [pre "A" "a";
               Sub (Node "S|<B-C-D>"
                      [pre "B" "b";
                       Sub (Node "S|<C-D>" [pre "C" "c"; pre "D" "d"])])])
  = Ok (Node "S" [pre "A" "a";
                  Sub (Node "S|<B-C-D>"
                         [pre "B" "b";
                          Sub (Node "S|<C-D>" [pre "C" "c"; pre "D" "d"])])]).
Proof.
  exact (proj2 (normal_form_is_fixed four_children _ eq_refl)).
Defined.

Lemma narrow_tree_is_unchanged_witness :
  chomsky_normal_form mixed_children = Ok mixed_children ∧
  emitted sample_budget mixed_children = production_list mixed_children ∧
  raises default_recursion_limit (unary_chain 1200).
Proof.
  assert (Hn : narrow mixed_children) by repeat constructor.
  split; [|split].
  - exact (proj1 (narrow_tree_is_unchanged sample_budget mixed_children Hn)).
  - refine (proj2 (proj2
      (narrow_tree_is_unchanged sample_budget mixed_children Hn)) _ _).
    + discriminate.
    + apply Nat.leb_le. reflexivity.
  - exact (proj2 (proj1 (proj2
      (narrow_tree_is_unchanged default_recursion_limit (unary_chain 1200)
         (narrow_unary_chain 1200)))) unary_chain_too_deep).
Defined.

Lemma terminal_ignores_normalisation_witness :
  terminal (contribution sample_budget the_big_cat_sat) =
  terminal (classified (production_list the_big_cat_sat)).
Proof.
  refine (terminal_ignores_normalisation sample_budget the_big_cat_sat
            _ _ _ eq_refl eq_refl).
  discriminate.
Defined.

Lemma left_hand_sides_after_normalisation_witness :
  Permutation
    (map lhs (production_list
       (Node "S" [Sub (Node "NP" [pre "DT" "the";
                                  Sub (Node "NP|<JJ-NN>"
                                         [pre "JJ" "big"; pre "NN" "cat"])]);
                  Sub (Node "VP" [pre "VBZ" "sat"])])))
    (flat_map node_lhs (nodes the_big_cat_sat)).
Proof.
  exact (proj1 (left_hand_sides_after_normalisation the_big_cat_sat _ eq_refl)).
Defined.

Lemma report_of_nothing_witness :
  prints (snd (run sample_budget (one_file [code_block; three_tokens])))
         ("TERMINALS" ++ newline ++ newline ++ newline ++
          "BINARIES" ++ newline ++ newline)%string.
Proof.
  refine (proj2 (report_of_nothing sample_budget
                   (one_file [code_block; three_tokens]) _ _) eq_refl).
  intros sent [<-|[<-|[]]]; reflexivity.
Defined.

(** [(S (NN caf<e9>))]: a token with a character outside ASCII. *)
Lemma report_is_ascii_witness :
  all_chars printable_or_newline
    (report [unicode_repr
               (mkProduction "NN"
                  [Terminal (String "c" (String "a" (String "f"
                     (String (ascii_of_nat 233) EmptyString))))])]
            [unicode_repr (mkProduction "S" [Nonterminal "NN"])]) = true.
Proof.
  refine (report_is_ascii sample_budget
    (one_file
       [Node "S" [pre "NN" (String "c" (String "a" (String "f"
                    (String (ascii_of_nat 233) EmptyString))))]])
    _ _ _).
  - intros sent [<-|[]]. repeat constructor.
  - eexists _, _. split; [|split; [|reflexivity]].
    + rewrite run_extract. cbn [snd].
      change (sentences (one_file ?l)) with l.
      rewrite extract_spec. cbn [map store_unions foldr].
      rewrite store_union_empty_r, contribution_spec.
      unfold classified, store_unions, single. simpl.
      rewrite !union_empty_l_L, !union_empty_r_L, elements_singleton.
      reflexivity.
    + rewrite run_extract. cbn [snd].
      change (sentences (one_file ?l)) with l.
      rewrite extract_spec. cbn [map store_unions foldr].
      rewrite store_union_empty_r, contribution_spec.
      unfold classified, store_unions, single. simpl.
      rewrite !union_empty_l_L, !union_empty_r_L, elements_singleton.
      reflexivity.
Defined.

Lemma lexical_text_determines_production_witness :
  "NN" = "NN" ∧ "cat" = "cat".
Proof.
  exact (lexical_text_determines_production "NN" "NN" "cat" "cat"
           eq_refl eq_refl eq_refl).
Defined.
